(** * otus_hw15: the Go memcached loader (src/main.go)

    A shallow embedding of [parseLine], [readFile], [writeInMemcached] and
    the wiring done by [main], followed by the properties of the loader.

    Go values are modelled as follows.
    - [string]: a sequence of bytes, Rocq's [string].
    - [int]: a 64-bit two's complement integer, a [Z] kept in range by [int64].
    - [uint32]: a [Z] reduced modulo 2^32.
    - [float64]: IEEE 754 binary64, [spec_float] with precision 53, emax 1024.
    - [map[string]T]: [option (gmap string T)], [None] being the nil map.
    - [chan *appsInstalled]: a bounded FIFO, a list of records. *)

From Stdlib Require Import ZArith String Ascii List Bool Lia.
From Stdlib Require Import Floats.SpecFloat.
From stdpp Require Import base option list gmap strings fin_maps.

Local Open Scope string_scope.
Local Open Scope Z_scope.

(** ** Numbers *)

Module GoInt.

(** [int] on the 64-bit targets: arithmetic wraps around. *)
Definition int64 (z : Z) : Z := (z + 2 ^ 63) mod 2 ^ 64 - 2 ^ 63.

Definition add (a b : Z) : Z := int64 (a + b).
Definition sub (a b : Z) : Z := int64 (a - b).

Definition MaxInt64 : Z := 2 ^ 63 - 1.
Definition MinInt64 : Z := - 2 ^ 63.
Definition MaxUint64 : Z := 2 ^ 64 - 1.

Definition in_int64 (z : Z) : Prop := MinInt64 <= z <= MaxInt64.

(** The conversion [uint32(x)] of an [int] keeps the low 32 bits. *)
Definition uint32 (z : Z) : Z := z mod 2 ^ 32.

End GoInt.

Module GoFloat.

Definition float64 : Type := spec_float.

Definition prec : Z := 53.
Definition emax : Z := 1024.

Definition zero : float64 := S754_zero false.

(** The conversion [float64(n)] of an [int]: the nearest binary64 value,
    ties to even. *)
Definition of_int (n : Z) : float64 := binary_normalize prec emax n 0 false.

Definition div (x y : float64) : float64 := SFdiv prec emax x y.
Definition ltb (x y : float64) : bool := SFltb x y.
Definition eqb (x y : float64) : bool := SFeqb x y.

(** The constant [0.01] rounded to binary64: 0x3F847AE147AE147B. *)
Definition lit_0_01 : float64 := S754_finite false 5764607523034235 (-59).
(** The constant [0.005] rounded to binary64: 0x3F747AE147AE147B. *)
Definition lit_0_005 : float64 := S754_finite false 5764607523034235 (-60).

End GoFloat.

(** ** package strings *)

Module Strings.

(** [strings.Split(s, sep)] for a one-byte separator: the pieces of [s]
    between the occurrences of [sep]; a string without [sep] (the empty
    string too) gives one piece. *)
Fixpoint Split (s : string) (sep : ascii) : list string :=
  match s with
  | EmptyString => [EmptyString]
  | String c s' =>
      if Ascii.eqb c sep then EmptyString :: Split s' sep
      else match Split s' sep with
           | f :: fs => String c f :: fs
           | [] => [String c EmptyString]
           end
  end.

(** [strings.Join(elems, sep)] for a one-byte separator. *)
Fixpoint Join (elems : list string) (sep : ascii) : string :=
  match elems with
  | [] => EmptyString
  | [e] => e
  | e :: rest => e ++ String sep (Join rest sep)
  end.

Fixpoint contains (s : string) (c : ascii) : bool :=
  match s with
  | EmptyString => false
  | String a s' => Ascii.eqb a c || contains s' c
  end.

End Strings.

(** ** package strconv *)

Module Strconv.
Import GoInt.

(** The [Err] field of a [*strconv.NumError]. *)
Inductive NumError := ErrSyntax | ErrRange.

Definition isDigit (c : ascii) : bool :=
  let n := Z.of_nat (nat_of_ascii c) in (48 <=? n) && (n <=? 57).

Definition digitVal (c : ascii) : Z := Z.of_nat (nat_of_ascii c) - 48.

(** The digit loop of [ParseUint(s, 10, 64)]: [n] is the value read so
    far. A byte that is no decimal digit is a syntax error with value 0;
    a value that leaves 64 bits is a range error with the value
    [MaxUint64], returned at once. *)
Fixpoint parseUintLoop (s : string) (n : Z) : Z * option NumError :=
  match s with
  | EmptyString => (n, None)
  | String c s' =>
      if isDigit c then
        if n >=? MaxUint64 / 10 + 1 then (MaxUint64, Some ErrRange)
        else
          let n1 := n * 10 + digitVal c in
          if n1 >? MaxUint64 then (MaxUint64, Some ErrRange)
          else parseUintLoop s' n1
      else (0, Some ErrSyntax)
  end.

Definition ParseUint (s : string) : Z * option NumError :=
  match s with
  | EmptyString => (0, Some ErrSyntax)
  | _ => parseUintLoop s 0
  end.

(** [ParseInt(s, 10, 64)]: an optional sign, then [ParseUint]; out of
    range, the value is the nearest bound of [int64]. *)
Definition ParseInt (s : string) : Z * option NumError :=
  match s with
  | EmptyString => (0, Some ErrSyntax)
  | String c s' =>
      let neg := Ascii.eqb c "-" in
      let body := if Ascii.eqb c "+" || neg then s' else s in
      match ParseUint body with
      | (_, Some ErrSyntax) => (0, Some ErrSyntax)
      | (un, _) =>
          let cutoff := 2 ^ 63 in
          if negb neg && (un >=? cutoff) then (cutoff - 1, Some ErrRange)
          else if neg && (un >? cutoff) then (- cutoff, Some ErrRange)
          else (if neg then - un else un, None)
      end
  end.

(** [strconv.Atoi(s)] is [ParseInt(s, 10, 0)] converted to [int]; its
    fast path for short strings computes the same result. *)
Definition Atoi (s : string) : Z * option NumError := ParseInt s.

(** Whether the numeral starts with a minus sign. *)
Definition signed (s : string) : bool :=
  match s with
  | String c _ => Ascii.eqb c "-"
  | EmptyString => false
  end.

End Strconv.

(** ** The record decoder: [parseLine] *)

Import GoInt GoFloat Strings Strconv.

(** A Go [error] value is modelled by its message; [nil] is [None]. *)
Definition error : Type := string.

Record appsInstalled := mkAppsInstalled {
  DevType : string;
  DevId : string;
  Lat : float64;
  Lon : float64;
  Apps : list Z;
  FileName : string
}.

Definition NormalErrRate : float64 := lit_0_01.
Definition ErrParseLine : error := "can not parse line".

Definition tab : ascii := "009"%char.
Definition comma : ascii := ","%char.

Section Decoder.

(** [strconv.ParseFloat(s, 64)]: the value and the error it returns. The
    loader only ever discards the error. *)
Variable ParseFloat : string -> float64 * option NumError.

(** The value [parseLine] returns next to [ErrParseLine]. *)
Definition failed (filename : string) : appsInstalled :=
  mkAppsInstalled "" "" zero zero [0] filename.

(** The loop over [strApps]: [apps[i] = uint32(val32)] with the error of
    [Atoi] dropped. *)
Definition parseApps (strApps : list string) : list Z :=
  map (fun val => uint32 (fst (Atoi val))) strApps.

Definition parseLine (line filename : string) : appsInstalled * option error :=
  let lineParts := Split line tab in
  if negb (Nat.eqb (length lineParts) 5) then (failed filename, Some ErrParseLine)
  else if String.eqb (nth 0 lineParts "") "" || String.eqb (nth 1 lineParts "") ""
  then (failed filename, Some ErrParseLine)
  else
    let strApps := Split (nth 4 lineParts "") comma in
    let apps := parseApps strApps in
    let lat := fst (ParseFloat (nth 2 lineParts "")) in
    let lon := fst (ParseFloat (nth 2 lineParts "")) in
    (mkAppsInstalled (nth 0 lineParts "") (nth 1 lineParts "") lat lon apps filename,
     None).

End Decoder.

(** ** Reconciliation: the arithmetic at the end of [readFile] *)

Inductive logEntry :=
| LogError (e : error)                 (* logger.Println(err), logger.Fatal(err) *)
| LogScannerError                      (* "Scanner Error" *)
| LogAllErrors                         (* "All errors. Failed load" *)
| LogAcceptable (errRate : float64)    (* "Acceptable error rate (%f). Successful load" *)
| LogHigh (errRate : float64)          (* "High error rate (%f > %f). Failed load" *)
| LogSendingFailed (e : error)         (* "sending failed: %s" *)
| LogSet (val : appsInstalled)         (* "set %s in %s" *)
| LogStartReadFile.                    (* "start read file" *)

(** Lines 111 to 122: from the two counters of the scan and the count read
    from the registry to the diagnostic of the file. *)
Definition reconcile (nSuccess nErrors nSendingErrors : Z) : logEntry :=
  let nErrors := GoInt.add nErrors nSendingErrors in
  let nSuccess := GoInt.sub nSuccess nSendingErrors in
  if nSuccess =? 0 then LogAllErrors
  else
    let errRate := div (of_int nErrors) (of_int nSuccess) in
    if ltb errRate NormalErrRate then LogAcceptable errRate
    else LogHigh errRate.

(** Whether a diagnostic of [readFile] reports a successful load. *)
Definition successful (l : logEntry) : bool :=
  match l with
  | LogAcceptable _ => true
  | _ => false
  end.

(** ** The delivery stats registry: [fileStats] *)

(** [stats.stats[filename]] followed by [delete(stats.stats, filename)],
    both under the lock. Reading a nil map gives the zero value, deleting
    from it does nothing. *)
Definition takeAndClear (stats : option (gmap string Z)) (filename : string)
  : Z * option (gmap string Z) :=
  match stats with
  | None => (0, None)
  | Some m => (default 0 (m !! filename), Some (delete filename m))
  end.

(** [stats.stats[filename] += 1] under the lock. Assigning to an entry of
    a nil map panics: the result is [None] then. *)
Definition recordFailure (stats : option (gmap string Z)) (filename : string)
  : option (gmap string Z) :=
  match stats with
  | None => None
  | Some m => Some (<[filename := GoInt.add (default 0 (m !! filename)) 1]> m)
  end.

(** ** The sink writer's retry loop *)

(** [for i := 0; i < maxRetry; i++ { err = Set(..); if err == nil { break } .. }]
    where [sets i] is what the [i]-th call of [memClient.Set] returns for
    this item. The result is the number of calls made and the last [err].
    The [time.Sleep] after a failed call changes nothing that is modelled. *)
Fixpoint retry (sets : nat -> option error) (fuel i : nat) (err : option error)
  : nat * option error :=
  match fuel with
  | O => (i, err)
  | S fuel' =>
      match sets i with
      | None => (S i, None)
      | Some e => retry sets fuel' (S i) (Some e)
      end
  end.

Definition retryLoop (sets : nat -> option error) (maxRetry : Z) : nat * option error :=
  retry sets (Z.to_nat maxRetry) O None.

(** ** The process: goroutines, channels and shared state

    A state holds, for each goroutine, the point of its code it has
    reached, and the shared objects: the channels, the registry, the log,
    the calls of [os.Rename], the counter of the wait group. A step is one
    goroutine running up to its next access to a shared object; the section
    guarded by the mutex is one step, since no other section can run
    within it. The runs are the interleavings of the steps. *)

(** What [os.Open], [gzip.NewReader] and the [bufio.Scanner] give for a
    file name: an error of one of the first two, or the lines the scanner
    yields and the value of [scanner.Err()] after them. *)
Inductive fileContent :=
| OpenError (e : error)
| GzipError (e : error)
| Lines (lines : list string) (scanErr : option error).

(** The surroundings of one run: the library function, the flags, the
    result of [filepath.Glob] (distinct names) and the files. *)
Record env := mkEnv {
  ParseFloat : string -> float64 * option NumError;
  channelSize : Z;
  maxRetry : Z;
  fileNames : list string;
  files : string -> fileContent
}.

(** The keys of [deviceMemc], hence of [channels]. *)
Definition devices : list string := ["idfa"; "gaid"; "adid"; "dvid"].

(** [filepath.Split] with the separator [/]: the path up to and including
    its last separator, and the rest. *)
Fixpoint splitPath (path : string) : string * string :=
  match path with
  | EmptyString => (EmptyString, EmptyString)
  | String c rest =>
      if contains rest "/" then
        let (dir, file) := splitPath rest in (String c dir, file)
      else if Ascii.eqb c "/" then (String c EmptyString, rest)
      else (EmptyString, String c rest)
  end.

(** [fmt.Sprintf("%s/.%s", dir, fn)], the new name given to [os.Rename]. *)
Definition archiveName (filename : string) : string :=
  let (dir, fn) := splitPath filename in (dir ++ "/." ++ fn)%string.

(** Where a [readFile] goroutine stands. *)
Inductive wstate :=
| WOpen
| WScan (lines : list string) (scanErr : option error) (nSuccess nErrors : Z)
| WSend (apps : appsInstalled) (lines : list string) (scanErr : option error)
        (nSuccess nErrors : Z)
| WReconcile (nSuccess nErrors : Z)
| WDisposition (nSuccess nErrors nSendingErrors : Z)
| WArchive
| WDone.

(** Where a [writeInMemcached] goroutine stands: receiving from its
    channel, in the retry loop for [val], or after the loop. *)
Inductive sstate :=
| SRecv
| SLoop (val : appsInstalled)
| SAfter (val : appsInstalled) (err : option error).

Inductive procStatus := Running | Exited (code : Z) | Panicked.

Record state := mkState {
  workers : gmap string wstate;
  writers : gmap string sstate;
  channels : gmap string (list appsInstalled);
  stats : option (gmap string Z);
  logs : list logEntry;
  renames : list (string * string * option error);
  wg : Z;
  status : procStatus
}.

Definition setWorker (fn : string) (w : wstate) (s : state) : state :=
  mkState (<[fn := w]> (workers s)) (writers s) (channels s) (stats s) (logs s)
          (renames s) (wg s) (status s).
Definition setWriter (d : string) (w : sstate) (s : state) : state :=
  mkState (workers s) (<[d := w]> (writers s)) (channels s) (stats s) (logs s)
          (renames s) (wg s) (status s).
Definition setChannel (d : string) (q : list appsInstalled) (s : state) : state :=
  mkState (workers s) (writers s) (<[d := q]> (channels s)) (stats s) (logs s)
          (renames s) (wg s) (status s).
Definition setStats (m : option (gmap string Z)) (s : state) : state :=
  mkState (workers s) (writers s) (channels s) m (logs s) (renames s) (wg s) (status s).
Definition addLog (l : logEntry) (s : state) : state :=
  mkState (workers s) (writers s) (channels s) (stats s) (logs s ++ [l])
          (renames s) (wg s) (status s).
Definition addRename (r : string * string * option error) (s : state) : state :=
  mkState (workers s) (writers s) (channels s) (stats s) (logs s)
          (renames s ++ [r]) (wg s) (status s).
Definition wgDone (s : state) : state :=
  mkState (workers s) (writers s) (channels s) (stats s) (logs s)
          (renames s) (wg s - 1) (status s).
Definition setStatus (st : procStatus) (s : state) : state :=
  mkState (workers s) (writers s) (channels s) (stats s) (logs s)
          (renames s) (wg s) st.

(** [logger.Println(err)] guarded by [err != nil]. *)
Definition logIfError (e : option error) (s : state) : state :=
  match e with
  | Some x => addLog (LogError x) s
  | None => s
  end.
Definition logIfScanError (e : option error) (s : state) : state :=
  match e with
  | Some _ => addLog LogScannerError s
  | None => s
  end.

Inductive actor := Reader (filename : string) | Writer (device : string) | Main.

(** The counters a reader holds are values of type [int], and the count it
    has read from the registry is 0. *)
Definition countsInRange (w : wstate) : Prop :=
  match w with
  | WScan _ _ nSuccess nErrors | WSend _ _ _ nSuccess nErrors
  | WReconcile nSuccess nErrors => in_int64 nSuccess /\ in_int64 nErrors
  | WDisposition nSuccess nErrors nSendingErrors =>
      in_int64 nSuccess /\ in_int64 nErrors /\ nSendingErrors = 0
  | _ => True
  end.

(** The calls of [os.Rename] made for [filename] so far. *)
Definition renamesOf (filename : string) (s : state)
  : list (string * string * option error) :=
  filter (fun r => r.1.1 = filename) (renames s).

(** [os.Rename] has been called for a file exactly when its reader is
    done, and then once, with the dotted name. *)
Definition archivedWhenDone (fn : string) (s : state) : Prop :=
  match workers s !! fn with
  | Some WDone => exists e, renamesOf fn s = [(fn, archiveName fn, e)]
  | _ => renamesOf fn s = []
  end.

Section Process.

Variable E : env.

(** The state [main] leaves when it reaches [wg.Wait()]: a channel and a
    sink writer per device, a reader per file, and the registry
    [fileStats{}], whose map is nil. [make] panics on a negative size. *)
Definition main : state :=
  mkState (list_to_map (map (fun fn => (fn, WOpen)) (fileNames E)))
          (list_to_map (map (fun d => (d, SRecv)) devices))
          (list_to_map (map (fun d => (d, [])) devices))
          None (map (fun _ => LogStartReadFile) (fileNames E)) []
          (Z.of_nat (length (fileNames E)))
          (if channelSize E <? 0 then Panicked else Running).

Inductive step : actor -> state -> state -> Prop :=
(* readFile, lines 74 to 82: logger.Fatal logs and exits the process *)
| step_open_fatal fn s e :
    status s = Running -> workers s !! fn = Some WOpen ->
    files E fn = OpenError e \/ files E fn = GzipError e ->
    step (Reader fn) s (setStatus (Exited 1) (addLog (LogError e) s))
| step_open fn s lines scanErr :
    status s = Running -> workers s !! fn = Some WOpen ->
    files E fn = Lines lines scanErr ->
    step (Reader fn) s (setWorker fn (WScan lines scanErr 0 0) s)
(* lines 90 to 101 *)
| step_scan_error fn s text rest scanErr nSuccess nErrors apps err :
    status s = Running ->
    workers s !! fn = Some (WScan (text :: rest) scanErr nSuccess nErrors) ->
    parseLine (ParseFloat E) text fn = (apps, Some err) ->
    step (Reader fn) s
         (addLog (LogError err)
            (setWorker fn (WScan rest scanErr nSuccess (GoInt.add nErrors 1)) s))
| step_scan_ok fn s text rest scanErr nSuccess nErrors apps :
    status s = Running ->
    workers s !! fn = Some (WScan (text :: rest) scanErr nSuccess nErrors) ->
    parseLine (ParseFloat E) text fn = (apps, None) ->
    step (Reader fn) s
         (setWorker fn (WSend apps rest scanErr (GoInt.add nSuccess 1) nErrors) s)
(* line 99: the send completes when the buffer has room ... *)
| step_send fn s apps rest scanErr nSuccess nErrors q :
    status s = Running ->
    workers s !! fn = Some (WSend apps rest scanErr nSuccess nErrors) ->
    channels s !! DevType apps = Some q ->
    Z.of_nat (length q) < channelSize E ->
    step (Reader fn) s
         (setChannel (DevType apps) (q ++ [apps])
            (setWorker fn (WScan rest scanErr nSuccess nErrors) s))
(* ... or when the receiver is waiting on the empty channel *)
| step_send_direct fn s apps rest scanErr nSuccess nErrors :
    status s = Running ->
    workers s !! fn = Some (WSend apps rest scanErr nSuccess nErrors) ->
    channels s !! DevType apps = Some [] ->
    writers s !! DevType apps = Some SRecv ->
    step (Reader fn) s
         (setWriter (DevType apps) (SLoop apps)
            (setWorker fn (WScan rest scanErr nSuccess nErrors) s))
(* lines 102 to 105 *)
| step_scan_end fn s scanErr nSuccess nErrors :
    status s = Running ->
    workers s !! fn = Some (WScan [] scanErr nSuccess nErrors) ->
    step (Reader fn) s
         (logIfScanError scanErr (setWorker fn (WReconcile nSuccess nErrors) s))
(* lines 106 to 109 *)
| step_take fn s nSuccess nErrors :
    status s = Running ->
    workers s !! fn = Some (WReconcile nSuccess nErrors) ->
    step (Reader fn) s
         (setStats (snd (takeAndClear (stats s) fn))
            (setWorker fn
               (WDisposition nSuccess nErrors (fst (takeAndClear (stats s) fn))) s))
(* lines 111 to 122 *)
| step_disposition fn s nSuccess nErrors nSendingErrors :
    status s = Running ->
    workers s !! fn = Some (WDisposition nSuccess nErrors nSendingErrors) ->
    step (Reader fn) s
         (addLog (reconcile nSuccess nErrors nSendingErrors) (setWorker fn WArchive s))
(* lines 124 to 131: [e] is what os.Rename returns *)
| step_archive fn s e :
    status s = Running ->
    workers s !! fn = Some WArchive ->
    step (Reader fn) s
         (wgDone (setWorker fn WDone
                    (logIfError e (addRename (fn, archiveName fn, e) s))))
(* writeInMemcached, line 142 *)
| step_recv d s val q :
    status s = Running ->
    writers s !! d = Some SRecv ->
    channels s !! d = Some (val :: q) ->
    step (Writer d) s (setChannel d q (setWriter d (SLoop val) s))
(* lines 147 to 154: [sets i] is what the i-th memClient.Set returns *)
| step_loop d s val sets :
    status s = Running ->
    writers s !! d = Some (SLoop val) ->
    step (Writer d) s
         (setWriter d (SAfter val (snd (retryLoop sets (maxRetry E)))) s)
(* lines 156 to 162 *)
| step_after_ok d s val :
    status s = Running ->
    writers s !! d = Some (SAfter val None) ->
    step (Writer d) s (addLog (LogSet val) (setWriter d SRecv s))
| step_after_failed d s val e m :
    status s = Running ->
    writers s !! d = Some (SAfter val (Some e)) ->
    recordFailure (stats s) (FileName val) = Some m ->
    step (Writer d) s
         (addLog (LogSet val)
            (setStats (Some m) (addLog (LogSendingFailed e) (setWriter d SRecv s))))
| step_after_panic d s val e :
    status s = Running ->
    writers s !! d = Some (SAfter val (Some e)) ->
    recordFailure (stats s) (FileName val) = None ->
    step (Writer d) s (setStatus Panicked (addLog (LogSendingFailed e) s))
(* main, line 223: wg.Wait() returns, main returns, the process ends *)
| step_main_exit s :
    status s = Running -> wg s = 0 ->
    step Main s (setStatus (Exited 0) s).

Definition next (s s' : state) : Prop := exists a, step a s s'.

(** The states of the runs of the program. *)
Definition reach : state -> state -> Prop := rtc next.

End Process.

(** ** Sample data for the examples *)

Module Sample.

Fixpoint digitsValue (s : string) (acc : Z) : option Z :=
  match s with
  | EmptyString => Some acc
  | String c s' =>
      if isDigit c then digitsValue s' (acc * 10 + digitVal c) else None
  end.

(** A stand-in for [strconv.ParseFloat(s, 64)] on plain decimal numerals
    [[+-]digits[.digits]]: with at most 15 digits the numerator and the
    power of ten are binary64 values and their quotient, rounded once, is
    the float nearest to the numeral, which is what [ParseFloat] returns.
    The examples below only use such numerals; every other string is
    answered like a syntax error. *)
Definition ParseFloat (s : string) : float64 * option NumError :=
  match s with
  | EmptyString => (zero, Some ErrSyntax)
  | String c s' =>
      let neg := Ascii.eqb c "-" in
      let body := if Ascii.eqb c "+" || neg then s' else s in
      let parts := Split body "." in
      let whole := nth 0 parts "" in
      let frac := nth 1 parts "" in
      if (Nat.ltb 2 (length parts)) || (String.length whole + String.length frac =? 0)%nat
      then (zero, Some ErrSyntax)
      else
        match digitsValue (whole ++ frac) 0 with
        | None => (zero, Some ErrSyntax)
        | Some m =>
            let q := div (of_int m) (of_int (10 ^ Z.of_nat (String.length frac))) in
            (if neg then SFopp q else q, None)
        end
  end.

Definition line1 : string :=
  Join ["idfa"; "1rfw452y52g2gq4g"; "55.55"; "42.42"; "1423,43,567,3,7,23"] tab.

(** A line for a device type [main] opens no channel for. *)
Definition lineUnknown : string :=
  Join ["abcd"; "5rfw452y52g2gq4g"; "55.55"; "42.42"; "4877,7862"] tab.

(** A line with four fields. *)
Definition lineShort : string :=
  Join ["idfa"; "1rfw452y52g2gq4g"; "55.55"; "42.42"] tab.

(** A line with an app id beyond [MaxInt64]. *)
Definition lineBigApp : string :=
  Join ["gaid"; "7rfw452y52g2gq4g"; "55.55"; "42.42"; "1423,9223372036854775808"] tab.

Definition file1 : string := "/data/appsinstalled/a.tsv.gz".
Definition file2 : string := "/data/appsinstalled/b.tsv.gz".

Definition apps1 : appsInstalled := fst (parseLine ParseFloat line1 file1).

(** One file with one good line; the flags have their defaults. *)
Definition env1 : env :=
  mkEnv ParseFloat 10 3 [file1] (fun _ => Lines [line1] None).

(** Two files, the first of which cannot be opened. *)
Definition env2 : env :=
  mkEnv ParseFloat 10 3 [file1; file2]
        (fun fn => if String.eqb fn file1
                   then OpenError "open /data/appsinstalled/a.tsv.gz: permission denied"
                   else Lines [line1] None).

(** One file: a malformed line, then a line for an unknown device type. *)
Definition env3 : env :=
  mkEnv ParseFloat 10 3 [file1] (fun _ => Lines [lineShort; lineUnknown] None).

(** A memcached that refuses every [Set]. *)
Definition refused : error := "memcache: connection refused".
Definition down : nat -> option error := fun _ => Some refused.

(** A run of [env1]: the reader goes through the whole of [readFile]
    while its one record waits in the channel; then the sink writer
    takes the record and every [Set] fails. *)
Definition opened1 : state := setWorker file1 (WScan [line1] None 0 0) (main env1).
Definition parsed1 : state := setWorker file1 (WSend apps1 [] None 1 0) opened1.
Definition sent1 : state :=
  setChannel "idfa" [apps1] (setWorker file1 (WScan [] None 1 0) parsed1).
Definition scanned1 : state := setWorker file1 (WReconcile 1 0) sent1.
Definition taken1 : state :=
  setStats None (setWorker file1 (WDisposition 1 0 0) scanned1).
Definition reconciled1 : state :=
  addLog (LogAcceptable zero) (setWorker file1 WArchive taken1).
Definition archived1 : state :=
  wgDone (setWorker file1 WDone
            (addRename (file1, archiveName file1, None) reconciled1)).
Definition received1 : state :=
  setChannel "idfa" [] (setWriter "idfa" (SLoop apps1) archived1).
Definition failed1 : state :=
  setWriter "idfa" (SAfter apps1 (Some refused)) received1.
Definition panicked1 : state :=
  setStatus Panicked (addLog (LogSendingFailed refused) failed1).

(** The first step of [env2]: [os.Open] fails. *)
Definition openError2 : error := "open /data/appsinstalled/a.tsv.gz: permission denied".
Definition fatal2 : state :=
  setStatus (Exited 1) (addLog (LogError openError2) (main env2)).

(** A run of [env3]: the malformed line is counted, the next one is
    decoded and sent on the channel of [abcd]. *)
Definition appsUnknown : appsInstalled := fst (parseLine ParseFloat lineUnknown file1).
Definition opened3 : state :=
  setWorker file1 (WScan [lineShort; lineUnknown] None 0 0) (main env3).
Definition counted3 : state :=
  addLog (LogError ErrParseLine) (setWorker file1 (WScan [lineUnknown] None 0 1) opened3).
Definition blocked3 : state :=
  setWorker file1 (WSend appsUnknown [] None 1 1) counted3.

End Sample.

(** ** Notions used to state the further properties *)

(** The number of occurrences of a byte in a string. *)
Fixpoint countByte (s : string) (c : ascii) : nat :=
  match s with
  | EmptyString => O
  | String a s' => if Ascii.eqb a c then S (countByte s' c) else countByte s' c
  end.

(** The number denoted by a string of decimal digits, read after [acc]. *)
Fixpoint decimalValue (s : string) (acc : Z) : option Z :=
  match s with
  | EmptyString => Some acc
  | String c s' =>
      if isDigit c then decimalValue s' (acc * 10 + digitVal c) else None
  end.

(** The test of lines 39 and 43 of [parseLine]. *)
Definition malformed (line : string) : bool :=
  let lineParts := Split line tab in
  negb (Nat.eqb (length lineParts) 5)
  || String.eqb (nth 0 lineParts "") "" || String.eqb (nth 1 lineParts "") "".

(** How many of the lines are decoded, and how many are not. *)
Definition nDecoded (lines : list string) : Z :=
  Z.of_nat (length (List.filter (fun l => negb (malformed l)) lines)).
Definition nMalformed (lines : list string) : Z :=
  Z.of_nat (length (List.filter malformed lines)).

(** Line 143: [fmt.Sprintf("%s:%s", val.DevType, val.DevId)], the key of
    the item given to [memClient.Set]. *)
Definition memcacheKey (val : appsInstalled) : string :=
  (DevType val ++ ":" ++ DevId val)%string.

(** [n] executions of line 159 on the registry. *)
Definition recordFailures (n : nat) (stats : option (gmap string Z)) (filename : string)
  : option (gmap string Z) :=
  Nat.iter n (fun st => recordFailure st filename) stats.

(** What a reader holds, against the lines of its file: the lines still to
    scan are the end of the file, and the counters are the numbers of
    decoded and of malformed lines among those scanned. *)
Definition readerCounts (PF : string -> float64 * option NumError) (fn : string)
           (lines : list string) (scanErr : option error) (w : wstate) : Prop :=
  match w with
  | WOpen | WArchive | WDone => True
  | WScan rest scanErr' nSuccess nErrors =>
      scanErr' = scanErr /\
      exists done, lines = (done ++ rest)%list /\
                   nSuccess = nDecoded done /\ nErrors = nMalformed done
  | WSend apps rest scanErr' nSuccess nErrors =>
      scanErr' = scanErr /\
      exists done text, lines = (done ++ text :: rest)%list /\
                        parseLine PF text fn = (apps, None) /\
                        nSuccess = nDecoded (done ++ [text]) /\
                        nErrors = nMalformed (done ++ [text])
  | WReconcile nSuccess nErrors =>
      nSuccess = nDecoded lines /\ nErrors = nMalformed lines
  | WDisposition nSuccess nErrors nSendingErrors =>
      nSuccess = nDecoded lines /\ nErrors = nMalformed lines /\ nSendingErrors = 0
  end.

(** Every record waits in the channel of its device type, and is held by
    the sink writer of its device type. *)
Definition routed (s : state) : Prop :=
  (forall d q, channels s !! d = Some q ->
               d ∈ devices /\ Forall (fun r => DevType r = d) q) /\
  (forall d w, writers s !! d = Some w ->
               d ∈ devices /\
               match w with
               | SRecv => True
               | SLoop val | SAfter val _ => DevType val = d
               end).

Definition isDone (w : wstate) : bool :=
  match w with
  | WDone => true
  | _ => false
  end.

(** The readers that have not reached the end of [readFile]. *)
Definition pending (s : state) : gmap string wstate :=
  filter (fun kv => isDone kv.2 = false) (workers s).

(** A record decoded from a line of the file it names, one of the files
    of the run. *)
Definition fromFile (E : env) (r : appsInstalled) : Prop :=
  FileName r ∈ fileNames E /\
  exists lines scanErr text,
    files E (FileName r) = Lines lines scanErr /\ text ∈ lines /\
    parseLine (ParseFloat E) text (FileName r) = (r, None).

(** The lines a reader still has to scan are lines of its file, and every
    record on its way, from the reader to the sink writer, is decoded from
    a line of the file it names. *)
Definition provenance (E : env) (s : state) : Prop :=
  (forall fn w, workers s !! fn = Some w ->
     fn ∈ fileNames E /\
     match w with
     | WScan rest _ _ _ =>
         exists lines scanErr,
           files E fn = Lines lines scanErr /\ forall t, t ∈ rest -> t ∈ lines
     | WSend apps rest _ _ _ =>
         FileName apps = fn /\ fromFile E apps /\
         exists lines scanErr,
           files E fn = Lines lines scanErr /\ forall t, t ∈ rest -> t ∈ lines
     | _ => True
     end) /\
  (forall d q, channels s !! d = Some q -> Forall (fromFile E) q) /\
  (forall d w, writers s !! d = Some w ->
     match w with
     | SRecv => True
     | SLoop val | SAfter val _ => fromFile E val
     end).

(** What the documentation of [strconv.ParseFloat] says of the value it
    returns with an error: 0 with a syntax error, an infinity with a range
    error. *)
Definition ParseFloatContract (PF : string -> float64 * option NumError) : Prop :=
  forall s,
    (snd (PF s) = Some ErrSyntax -> fst (PF s) = zero) /\
    (snd (PF s) = Some ErrRange -> exists sign, fst (PF s) = S754_infinity sign).

(** ** Further sample data *)

Module Sample2.
Import Sample.

(** A stand-in for [strconv.ParseFloat(s, 64)] that also reads the
    numerals [digits e digits], an integer and a power of ten that is not
    negative: the value is a whole number, rounded once to the nearest
    binary64; beyond the largest float the result is the infinity, which
    [ParseFloat] returns with a range error. Every other string is
    answered as [Sample.ParseFloat] does. *)
Definition ParseFloatExp (s : string) : float64 * option NumError :=
  match Split s "e" with
  | [mant; ex] =>
      match digitsValue mant 0, digitsValue ex 0 with
      | Some m, Some e =>
          if String.eqb mant "" || String.eqb ex "" then ParseFloat s
          else
            match binary_normalize prec emax (m * 10 ^ e) 0 false with
            | S754_infinity sign => (S754_infinity sign, Some ErrRange)
            | v => (v, None)
            end
      | _, _ => ParseFloat s
      end
  | _ => ParseFloat s
  end.

(** A line whose latitude is beyond the largest float. *)
Definition lineBigLat : string :=
  Join ["gaid"; "7rfw452y52g2gq4g"; "1e400"; "42.42"; "1423,43"] tab.

(** A line whose longitude is no number. *)
Definition lineBadLon : string :=
  Join ["gaid"; "7rfw452y52g2gq4g"; "55.55"; "abc"; "1423,43"] tab.


(** One file with one malformed line, and the run of its reader up to the
    read of the registry. *)
Definition env4 : env :=
  mkEnv ParseFloat 10 3 [file1] (fun _ => Lines [lineShort] None).
Definition opened4 : state := setWorker file1 (WScan [lineShort] None 0 0) (main env4).
Definition counted4 : state :=
  addLog (LogError ErrParseLine) (setWorker file1 (WScan [] None 0 1) opened4).
Definition scanned4 : state := setWorker file1 (WReconcile 0 1) counted4.
Definition taken4 : state :=
  setStats None (setWorker file1 (WDisposition 0 1 0) scanned4).

End Sample2.

(** * Properties *)

(** ** Strings and numbers *)

Lemma Split_no_sep s sep : contains s sep = false -> Split s sep = [s].
Proof.
  induction s as [|c s IH]; simpl; [done|].
  intros [Hc Hs]%orb_false_iff. by rewrite Hc, (IH Hs).
Qed.

Lemma Split_app_sep f s sep :
  contains f sep = false ->
  Split (f ++ String sep s)%string sep = f :: Split s sep.
Proof.
  induction f as [|c f IH]; simpl.
  - intros _. by rewrite Ascii.eqb_refl.
  - intros [Hc Hf]%orb_false_iff. by rewrite Hc, (IH Hf).
Qed.

(** Splitting undoes joining when no element contains the separator. *)
Lemma Split_Join elems sep :
  elems <> [] ->
  Forall (fun f => contains f sep = false) elems ->
  Split (Join elems sep) sep = elems.
Proof.
  induction elems as [|e rest IH]; [done|]. intros _ Hall.
  apply Forall_cons in Hall as [He Hrest].
  destruct rest as [|e' rest'].
  - simpl. by apply Split_no_sep.
  - change (Join (e :: e' :: rest') sep)
      with (e ++ String sep (Join (e' :: rest') sep))%string.
    rewrite Split_app_sep by done. f_equal. by apply IH.
Qed.

Lemma int64_id z : in_int64 z -> int64 z = z.
Proof.
  unfold in_int64, int64, MinInt64, MaxInt64. intros H.
  rewrite Z.mod_small; lia.
Qed.

Lemma int64_range z : in_int64 (int64 z).
Proof.
  unfold in_int64, int64, MinInt64, MaxInt64.
  pose proof (Z.mod_pos_bound (z + 2 ^ 63) (2 ^ 64)). lia.
Qed.

(** An [Atoi] that fails on the syntax returns 0. *)
Lemma Atoi_syntax s : snd (Atoi s) = Some ErrSyntax -> fst (Atoi s) = 0.
Proof.
  unfold Atoi, ParseInt. destruct s as [|c s]; [done|].
  destruct (ParseUint _) as [un [[]|]]; simpl; repeat case_match; simpl; congruence.
Qed.

(** An [Atoi] that fails on the range returns the bound of [int64] on the
    side of the sign. *)
Lemma Atoi_range s :
  snd (Atoi s) = Some ErrRange ->
  fst (Atoi s) = if signed s then MinInt64 else MaxInt64.
Proof.
  unfold Atoi, ParseInt, signed. destruct s as [|c s]; [done|].
  destruct (ParseUint _) as [un [[]|]]; [done|..]; simpl;
    destruct (Ascii.eqb c "-"); simpl; repeat case_match; simpl;
    first [congruence | reflexivity].
Qed.

(** ** The decoder *)

Section DecoderFacts.

Variable PF : string -> float64 * option NumError.

(** [parseLine] fails exactly on a wrong field count or an empty first
    or second field. *)
Lemma parseLine_error_iff line fn :
  snd (parseLine PF line fn) = Some ErrParseLine <->
  length (Split line tab) <> 5%nat \/
  nth 0 (Split line tab) "" = "" \/ nth 1 (Split line tab) "" = "".
Proof.
  unfold parseLine.
  destruct (Nat.eqb_spec (length (Split line tab)) 5) as [Hlen|Hlen]; simpl.
  - destruct (String.eqb_spec (nth 0 (Split line tab) "") "") as [H0|H0]; simpl.
    + split; auto.
    + destruct (String.eqb_spec (nth 1 (Split line tab) "") "") as [H1|H1]; simpl.
      * split; auto.
      * split; [done|]. intros [?|[?|?]]; done.
  - split; auto.
Qed.

(** It knows no other error. *)
Lemma parseLine_error_cases line fn :
  snd (parseLine PF line fn) = None \/ snd (parseLine PF line fn) = Some ErrParseLine.
Proof. unfold parseLine. repeat case_match; simpl; auto. Qed.

(** What a successful [parseLine] returns. *)
Lemma parseLine_ok line fn r :
  parseLine PF line fn = (r, None) ->
  let lineParts := Split line tab in
  r = mkAppsInstalled (nth 0 lineParts "") (nth 1 lineParts "")
        (fst (PF (nth 2 lineParts ""))) (fst (PF (nth 2 lineParts "")))
        (parseApps (Split (nth 4 lineParts "") comma)) fn.
Proof. unfold parseLine. repeat case_match; simpl; congruence. Qed.

(** Decoding a line made of five tab-free fields, the first two not empty. *)
Lemma parseLine_Join devType devId lat lon rawApps fn :
  Forall (fun f => contains f tab = false) [devType; devId; lat; lon; rawApps] ->
  devType <> "" -> devId <> "" ->
  parseLine PF (Join [devType; devId; lat; lon; rawApps] tab) fn =
  (mkAppsInstalled devType devId (fst (PF lat)) (fst (PF lat))
     (parseApps (Split rawApps comma)) fn, None).
Proof.
  intros Hall H0 H1. unfold parseLine. rewrite Split_Join by done. simpl.
  apply String.eqb_neq in H0, H1. by rewrite H0, H1.
Qed.

End DecoderFacts.

(** ** The process *)

(** Projections of updated states. *)
Ltac state_simpl :=
  cbn [workers writers channels stats logs renames wg status
       setWorker setWriter setChannel setStats addLog addRename wgDone setStatus
       logIfError logIfScanError] in *.

(** Case analysis on a step, the optional log entries split. *)
Ltac step_cases H :=
  destruct H;
  repeat match goal with
         | |- context [logIfError ?e _] => is_var e; destruct e
         | |- context [logIfScanError ?e _] => is_var e; destruct e
         end;
  state_simpl.

Lemma main_channels E :
  channels (main E) =
  <["idfa" := []]> (<["gaid" := []]> (<["adid" := []]> (<["dvid" := []]> ∅))).
Proof. reflexivity. Qed.

Section ProcessFacts.

Variable E : env.

Lemma step_running a s s' : step E a s s' -> status s = Running.
Proof. by destruct 1. Qed.

(** A process that has exited or panicked makes no step. *)
Lemma stopped_stuck a s s' : status s <> Running -> ~ step E a s s'.
Proof. intros Hs Hstep. by apply step_running in Hstep. Qed.

(** Proof of an invariant of the runs. *)
Lemma reach_invariant (P : state -> Prop) s0 :
  P s0 ->
  (forall a s s', P s -> step E a s s' -> P s') ->
  forall s, reach E s0 s -> P s.
Proof.
  intros H0 Hstep. apply rtc_ind_r; [done|].
  intros s s' _ [a Ha] IH. eauto.
Qed.

(** The map of the registry stays nil: nothing ever allocates it. *)
Lemma reach_stats_nil s : reach E (main E) s -> stats s = None.
Proof.
  apply (reach_invariant (fun s => stats s = None)); [done|].
  intros a s0 s' Hnil Hstep. step_cases Hstep; try done.
  - by rewrite Hnil.
  - rewrite Hnil in *. done.
Qed.

(** The channels map keeps the keys [main] gave it. *)
Lemma reach_channels_keys s d :
  reach E (main E) s -> d ∉ devices -> channels s !! d = None.
Proof.
  intros Hreach Hd. revert s Hreach.
  apply (reach_invariant (fun s => channels s !! d = None)).
  - unfold devices in Hd. rewrite main_channels.
    repeat (apply not_elem_of_cons in Hd as [? Hd]).
    by rewrite !lookup_insert_ne.
  - intros a s s' IH Hstep. step_cases Hstep; try done.
    all: rewrite lookup_insert_ne; [done|congruence].
Qed.

(** Every reader starts at [os.Open]. *)
Lemma main_workers fn w : workers (main E) !! fn = Some w -> w = WOpen.
Proof.
  intros Hw. apply elem_of_list_to_map_2, list_elem_of_fmap in Hw.
  destruct Hw as (fn' & [= _ ->] & _). done.
Qed.

Lemma reach_archived fn s : reach E (main E) s -> archivedWhenDone fn s.
Proof.
  apply (reach_invariant (archivedWhenDone fn)).
  - unfold archivedWhenDone.
    destruct (workers (main E) !! fn) as [w|] eqn:Hw; [|done].
    by rewrite (main_workers _ _ Hw).
  - unfold archivedWhenDone, renamesOf. intros a s0 s' IH Hstep.
    step_cases Hstep; try done;
      (destruct (decide (fn0 = fn)) as [->|Hne];
       [rewrite lookup_insert_eq | rewrite lookup_insert_ne by done]);
      repeat match goal with
             | H : workers _ !! _ = Some _ |- _ => rewrite H in IH
             end;
      rewrite ?filter_app, ?filter_cons, ?filter_nil; cbn [fst snd];
      try done.
    all: try (rewrite decide_True by done).
    all: try (rewrite decide_False by done).
    all: try (rewrite IH; eauto).
    all: rewrite ?app_nil_r; done.
Qed.

(** A reader that sends on a channel [main] never made stays where it is:
    a send on a nil channel blocks for ever. *)
Lemma nil_channel_blocks s fn apps rest scanErr nSuccess nErrors :
  reach E (main E) s ->
  workers s !! fn = Some (WSend apps rest scanErr nSuccess nErrors) ->
  DevType apps ∉ devices ->
  forall s', reach E s s' ->
             workers s' !! fn = Some (WSend apps rest scanErr nSuccess nErrors).
Proof.
  intros Hmain Hw Hdev. apply rtc_ind_r; [done|].
  intros y z Hy [a Hstep] IH.
  assert (channels y !! DevType apps = None) as Hnil.
  { apply reach_channels_keys; [|done]. by etrans. }
  step_cases Hstep; try done;
    (destruct (decide (fn0 = fn)) as [->|Hne]; [|by rewrite lookup_insert_ne]);
    simplify_eq.
Qed.

(** After the retry loop has ended with an error, the only thing the
    sink writer can do is panic on the nil map. *)
Lemma after_error_panics s d val e :
  reach E (main E) s ->
  writers s !! d = Some (SAfter val (Some e)) ->
  forall s', step E (Writer d) s s' ->
             s' = setStatus Panicked (addLog (LogSendingFailed e) s).
Proof.
  intros Hreach Hw s' Hstep. apply reach_stats_nil in Hreach.
  inversion Hstep; subst; simplify_eq; try done.
  rewrite Hreach in *. done.
Qed.

(** On every run the counters of the readers stay within [int], and the
    count read from the registry, whose map is nil, is 0. *)
Lemma reach_counts s fn w :
  reach E (main E) s -> workers s !! fn = Some w -> countsInRange w.
Proof.
  intros Hreach. revert fn w.
  assert (stats s = None /\
          forall fn w, workers s !! fn = Some w -> countsInRange w) as [_ H];
    [|exact H].
  revert s Hreach. apply reach_invariant.
  - split; [done|]. intros fn w Hw. by rewrite (main_workers _ _ Hw).
  - intros a s s' [Hnil IH] Hstep. split.
    { apply (reach_invariant (fun s => stats s = None) s); [done| |].
      - intros a0 s0 s0' Hnil0 Hstep0. step_cases Hstep0; try done.
        + by rewrite Hnil0.
        + rewrite Hnil0 in *. done.
      - apply rtc_once. by eexists. }
    intros fn w.
    step_cases Hstep; try (by apply IH);
      (destruct (decide (fn0 = fn)) as [->|Hne];
       [rewrite lookup_insert_eq | rewrite lookup_insert_ne by done; by apply IH]);
      intros [= <-];
      match goal with
      | H : workers _ !! _ = Some _ |- _ => apply IH in H; simpl in H
      end;
      simpl; rewrite ?Hnil; simpl;
      unfold GoInt.add; intuition auto using int64_range.
    all: unfold in_int64, MinInt64, MaxInt64; lia.
Qed.

(** A sink writer never touches what a reader holds. *)
Lemma writer_step_workers d s s' : step E (Writer d) s s' -> workers s' = workers s.
Proof. intros Hstep. by inversion Hstep. Qed.

(** After a loop that ended without error the sink writer records
    nothing: it logs and goes back to its channel. *)
Lemma after_success_records_nothing s d val :
  writers s !! d = Some (SAfter val None) ->
  forall s', step E (Writer d) s s' ->
             stats s' = stats s /\ status s' = Running /\
             writers s' !! d = Some SRecv.
Proof.
  intros Hw s' Hstep. inversion Hstep; subst; simplify_eq.
  state_simpl. by rewrite lookup_insert_eq.
Qed.

End ProcessFacts.

(** ** The retry loop *)

Lemma retry_calls sets fuel i err :
  (i <= fst (retry sets fuel i err) <= i + fuel)%nat.
Proof.
  revert i err. induction fuel as [|fuel IH]; intros i err; simpl; [lia|].
  destruct (sets i); simpl; [|lia]. specialize (IH (S i) (Some e)). lia.
Qed.

(** [Set] is called at most [maxRetry] times. *)
Lemma retryLoop_at_most sets maxRetry :
  Z.of_nat (fst (retryLoop sets maxRetry)) <= Z.max 0 maxRetry.
Proof.
  unfold retryLoop. pose proof (retry_calls sets (Z.to_nat maxRetry) 0 None). lia.
Qed.

Lemma retry_first_success sets fuel i k err :
  (k < fuel)%nat -> sets (i + k)%nat = None ->
  (forall j, (j < k)%nat -> sets (i + j)%nat <> None) ->
  retry sets fuel i err = (S (i + k), None).
Proof.
  revert i k err. induction fuel as [|fuel IH]; intros i k err Hk Hok Hfail; [lia|].
  simpl. destruct k as [|k].
  - rewrite Nat.add_0_r in Hok. rewrite Hok. by rewrite Nat.add_0_r.
  - destruct (sets i) as [e|] eqn:Hi.
    + rewrite (IH (S i) k (Some e)).
      * f_equal. lia.
      * lia.
      * by replace (S i + k)%nat with (i + S k)%nat by lia.
      * intros j Hj. replace (S i + j)%nat with (i + S j)%nat by lia. apply Hfail. lia.
    + exfalso. apply (Hfail O); [lia|]. by rewrite Nat.add_0_r.
Qed.

(** The loop stops at the first [Set] that succeeds, and leaves no error. *)
Lemma retryLoop_first_success sets maxRetry k :
  Z.of_nat k < maxRetry -> sets k = None ->
  (forall j, (j < k)%nat -> sets j <> None) ->
  retryLoop sets maxRetry = (S k, None).
Proof.
  intros Hk Hok Hfail. unfold retryLoop.
  apply (retry_first_success sets (Z.to_nat maxRetry) 0 k None); [lia|done|done].
Qed.

Lemma retry_exhausted sets fuel i err :
  (forall j, (j < fuel)%nat -> sets (i + j)%nat <> None) ->
  fst (retry sets fuel i err) = (i + fuel)%nat /\
  (0 < fuel -> snd (retry sets fuel i err) = sets (i + fuel - 1))%nat.
Proof.
  revert i err. induction fuel as [|fuel IH]; intros i err Hfail; simpl.
  - split; [lia|lia].
  - destruct (sets i) as [e|] eqn:Hi.
    + destruct (IH (S i) (Some e)) as [IH1 IH2].
      { intros j Hj. replace (S i + j)%nat with (i + S j)%nat by lia. apply Hfail. lia. }
      split; [lia|]. intros _. destruct fuel as [|fuel'].
      * simpl. rewrite <- Hi. f_equal. lia.
      * rewrite IH2 by lia. f_equal. lia.
    + exfalso. apply (Hfail O); [lia|]. by rewrite Nat.add_0_r.
Qed.

(** When every one of the [maxRetry] calls fails, the loop makes them all
    and leaves the error of the last one. *)
Lemma retryLoop_exhausted sets maxRetry :
  0 < maxRetry ->
  (forall j, Z.of_nat j < maxRetry -> sets j <> None) ->
  fst (retryLoop sets maxRetry) = Z.to_nat maxRetry /\
  snd (retryLoop sets maxRetry) = sets (Z.to_nat maxRetry - 1)%nat /\
  snd (retryLoop sets maxRetry) <> None.
Proof.
  intros Hpos Hfail. unfold retryLoop.
  destruct (retry_exhausted sets (Z.to_nat maxRetry) 0 None) as [H1 H2].
  { intros j Hj. apply Hfail. lia. }
  split; [done|]. rewrite H2 by lia. split; [done|]. apply Hfail. lia.
Qed.

(** ** The registry and the archive name *)

(** On an allocated map a recorded failure adds one to the entry of the
    file and leaves the other entries alone. *)
Lemma recordFailure_allocated (m : gmap string Z) fn :
  exists m', recordFailure (Some m) fn = Some m' /\
             m' !! fn = Some (GoInt.add (default 0 (m !! fn)) 1) /\
             forall fn', fn' <> fn -> m' !! fn' = m !! fn'.
Proof.
  eexists. split; [reflexivity|]. split.
  - apply lookup_insert_eq.
  - intros fn' Hne. by apply lookup_insert_ne.
Qed.

(** [takeAndClear] leaves no entry for the file. *)
Lemma takeAndClear_allocated (m : gmap string Z) fn :
  takeAndClear (Some m) fn = (default 0 (m !! fn), Some (delete fn m)) /\
  delete fn m !! fn = None.
Proof. split; [reflexivity|apply lookup_delete_eq]. Qed.

(** The two parts of [filepath.Split] make up the path, the second has
    no separator, and the first is empty or ends with one. *)
Lemma splitPath_spec path :
  ((splitPath path).1 ++ (splitPath path).2)%string = path /\
  contains (splitPath path).2 "/" = false /\
  ((splitPath path).1 = "" \/ exists d, (splitPath path).1 = (d ++ "/")%string).
Proof.
  induction path as [|c rest (IH1 & IH2 & IH3)]; [by auto|]. simpl.
  destruct (contains rest "/") eqn:Hrest.
  - destruct (splitPath rest) as [dir file]. simpl in *. split_and!; [|done|].
    + change (String c (dir ++ file)%string = String c rest). by rewrite IH1.
    + right. destruct IH3 as [->|[d ->]].
      * change (file = rest) in IH1. congruence.
      * by exists (String c d).
  - destruct (Ascii.eqb_spec c "/") as [->|Hc]; simpl.
    + split_and!; [done..|]. right. by exists "".
    + split_and!; [done| |by left].
      apply Ascii.eqb_neq in Hc. by rewrite Hc, Hrest.
Qed.

(** The new name is the directory, a separator, a dot and the old name. *)
Lemma archiveName_spec filename :
  archiveName filename =
  ((splitPath filename).1 ++ "/." ++ (splitPath filename).2)%string.
Proof. unfold archiveName. by destruct (splitPath filename). Qed.

(** ** Sample runs *)

Module SampleRuns.
Import Sample.

Lemma run1_open : step env1 (Reader file1) (main env1) opened1.
Proof. by apply (step_open env1 file1 (main env1) [line1] None). Qed.

Lemma run1_parse : step env1 (Reader file1) opened1 parsed1.
Proof. by apply (step_scan_ok env1 file1 opened1 line1 [] None 0 0 apps1). Qed.

Lemma run1_send : step env1 (Reader file1) parsed1 sent1.
Proof. by apply (step_send env1 file1 parsed1 apps1 [] None 1 0 []). Qed.

Lemma run1_scan_end : step env1 (Reader file1) sent1 scanned1.
Proof. by apply (step_scan_end env1 file1 sent1 None 1 0). Qed.

Lemma run1_take : step env1 (Reader file1) scanned1 taken1.
Proof. by apply (step_take env1 file1 scanned1 1 0). Qed.

Lemma run1_disposition : step env1 (Reader file1) taken1 reconciled1.
Proof. by apply (step_disposition env1 file1 taken1 1 0 0). Qed.

Lemma run1_archive : step env1 (Reader file1) reconciled1 archived1.
Proof. by apply (step_archive env1 file1 reconciled1 None). Qed.

Lemma run1_recv : step env1 (Writer "idfa") archived1 received1.
Proof. by apply (step_recv env1 "idfa" archived1 apps1 []). Qed.

Lemma run1_loop : step env1 (Writer "idfa") received1 failed1.
Proof. by apply (step_loop env1 "idfa" received1 apps1 down). Qed.

Lemma run1_panic : step env1 (Writer "idfa") failed1 panicked1.
Proof. by apply (step_after_panic env1 "idfa" failed1 apps1 refused). Qed.

Lemma reach1_scanned : reach env1 (main env1) scanned1.
Proof.
  eapply rtc_l; [eexists; apply run1_open|].
  eapply rtc_l; [eexists; apply run1_parse|].
  eapply rtc_l; [eexists; apply run1_send|].
  apply rtc_once. eexists; apply run1_scan_end.
Qed.

Lemma reach1_taken : reach env1 (main env1) taken1.
Proof. eapply rtc_r; [apply reach1_scanned|]. eexists; apply run1_take. Qed.

Lemma reach1_failed : reach env1 (main env1) failed1.
Proof.
  etrans; [apply reach1_taken|].
  eapply rtc_l; [eexists; apply run1_disposition|].
  eapply rtc_l; [eexists; apply run1_archive|].
  eapply rtc_l; [eexists; apply run1_recv|].
  apply rtc_once. eexists; apply run1_loop.
Qed.

Lemma run2_fatal : step env2 (Reader file1) (main env2) fatal2.
Proof. apply (step_open_fatal env2 file1 (main env2) openError2); auto. Qed.

Lemma run3_open : step env3 (Reader file1) (main env3) opened3.
Proof. by apply (step_open env3 file1 (main env3) [lineShort; lineUnknown] None). Qed.

Lemma run3_count : step env3 (Reader file1) opened3 counted3.
Proof.
  by apply (step_scan_error env3 file1 opened3 lineShort [lineUnknown] None 0 0
              (failed file1) ErrParseLine).
Qed.

Lemma reach3_counted : reach env3 (main env3) counted3.
Proof.
  eapply rtc_l; [eexists; apply run3_open|].
  apply rtc_once. eexists; apply run3_count.
Qed.

End SampleRuns.

(** ** The claims *)

(** C1, as the code has it: the reader performs the read-and-clear as soon
    as its scan has ended. The step is enabled in every running state,
    whatever the channels and the sink writers hold; it reads the entry of
    the file as it is at that moment (0 when absent or when the map is
    nil), removes it, and touches neither channels nor writers. No later
    step of a sink writer changes the count the reader has read. *)
Theorem take_does_not_wait E s fn nSuccess nErrors :
  status s = Running ->
  workers s !! fn = Some (WReconcile nSuccess nErrors) ->
  (exists s', step E (Reader fn) s s') /\
  forall s', step E (Reader fn) s s' ->
    workers s' !! fn =
      Some (WDisposition nSuccess nErrors
              (match stats s with Some m => default 0 (m !! fn) | None => 0 end)) /\
    stats s' = (delete fn <$> stats s) /\
    channels s' = channels s /\ writers s' = writers s /\
    forall d s'', step E (Writer d) s' s'' -> workers s'' !! fn = workers s' !! fn.
Proof.
  intros Hrun Hw. split.
  - eexists. by apply step_take.
  - intros s' Hstep. split_and!.
    5:{ intros d s'' Hd. by rewrite (writer_step_workers E d s' s'' Hd). }
    all: inversion Hstep; subst; simplify_eq; state_simpl.
    + rewrite lookup_insert_eq. by destruct (stats s).
    + by destruct (stats s).
    + done.
    + done.
Qed.

Lemma take_does_not_wait_witness :
  exists s', step Sample.env1 (Reader Sample.file1) Sample.scanned1 s' /\
             channels Sample.scanned1 !! "idfa" = Some [Sample.apps1].
Proof.
  destruct (take_does_not_wait Sample.env1 Sample.scanned1 Sample.file1 1 0)
    as [[s' Hs'] _]; [reflexivity|reflexivity|].
  exists s'. split; [exact Hs'|reflexivity].
Defined.

(** C1, counterexample: the reader of the file has read and cleared the
    registry (count 0), logged a successful load and renamed the file,
    while the only record of the file was still waiting in the channel;
    the delivery of that record then fails for good. *)
Lemma failure_after_reconciliation :
  reach Sample.env1 (main Sample.env1) Sample.failed1 /\
  workers Sample.failed1 !! Sample.file1 = Some WDone /\
  logs Sample.failed1 = [LogStartReadFile; LogAcceptable zero] /\
  writers Sample.failed1 !! "idfa" = Some (SAfter Sample.apps1 (Some Sample.refused)) /\
  FileName Sample.apps1 = Sample.file1.
Proof. split; [apply SampleRuns.reach1_failed|]. by split_and!. Qed.

(** C3, as the code has it: a failure of [os.Open] or [gzip.NewReader] is
    logged and ends the whole process with exit code 1 ([logger.Fatal]);
    no reader and no sink writer makes another step. *)
Theorem open_failure_is_fatal E s fn e :
  status s = Running ->
  workers s !! fn = Some WOpen ->
  files E fn = OpenError e \/ files E fn = GzipError e ->
  (exists s', step E (Reader fn) s s') /\
  forall s', step E (Reader fn) s s' ->
    logs s' = (logs s ++ [LogError e])%list /\ status s' = Exited 1 /\
    workers s' = workers s /\ writers s' = writers s /\
    forall a s'', ~ step E a s' s''.
Proof.
  intros Hrun Hw Hfile. split.
  - eexists. by apply step_open_fatal.
  - intros s' Hstep. inversion Hstep as [? ? e0 ? ? Hfile0| | | | | | | | | | | | | | |];
      subst; simplify_eq; [|destruct Hfile; congruence].
    assert (e0 = e) as -> by (destruct Hfile, Hfile0; congruence).
    split_and!; try done. intros a s''. by apply stopped_stuck.
Qed.

Lemma open_failure_is_fatal_witness :
  exists s', step Sample.env2 (Reader Sample.file1) (main Sample.env2) s'.
Proof.
  destruct (open_failure_is_fatal Sample.env2 (main Sample.env2) Sample.file1
              Sample.openError2) as [H _];
    [reflexivity|reflexivity|left; reflexivity|exact H].
Defined.

(** C3, counterexample: the first of two files cannot be opened; the
    process exits with code 1 while the reader of the second file has not
    started, and nothing runs any more. *)
Lemma open_failure_stops_other_files :
  step Sample.env2 (Reader Sample.file1) (main Sample.env2) Sample.fatal2 /\
  status Sample.fatal2 = Exited 1 /\
  workers Sample.fatal2 !! Sample.file2 = Some WOpen /\
  forall a s', ~ step Sample.env2 a Sample.fatal2 s'.
Proof.
  split; [apply SampleRuns.run2_fatal|]. split_and!; try done.
  intros a s'. by apply stopped_stuck.
Qed.

(** C6: [parseLine] fails, with [ErrParseLine] and with no other error,
    exactly when the split on tabs does not give 5 fields or the first or
    the second field is empty. On such a line the reader adds one to its
    error counter, leaves its success counter alone, logs the error and
    goes on with the next line; the process keeps running. *)
Theorem malformed_line_counted E line :
  let lineParts := Split line tab in
  let malformed :=
    length lineParts <> 5%nat \/ nth 0 lineParts "" = "" \/ nth 1 lineParts "" = "" in
  (forall fn, snd (parseLine (ParseFloat E) line fn) = Some ErrParseLine <-> malformed) /\
  (forall fn, snd (parseLine (ParseFloat E) line fn) <> None <-> malformed) /\
  forall s fn rest scanErr nSuccess nErrors,
    malformed ->
    status s = Running ->
    workers s !! fn = Some (WScan (line :: rest) scanErr nSuccess nErrors) ->
    (exists s', step E (Reader fn) s s') /\
    forall s', step E (Reader fn) s s' ->
      workers s' !! fn = Some (WScan rest scanErr nSuccess (GoInt.add nErrors 1)) /\
      (in_int64 (nErrors + 1) -> GoInt.add nErrors 1 = nErrors + 1) /\
      logs s' = (logs s ++ [LogError ErrParseLine])%list /\
      status s' = Running.
Proof.
  intros lineParts malformed.
  assert (forall fn, snd (parseLine (ParseFloat E) line fn) = Some ErrParseLine <->
                     malformed) as Hiff by (intros fn; apply parseLine_error_iff).
  split_and!; [done| |].
  - intros fn. rewrite <- (Hiff fn).
    destruct (parseLine_error_cases (ParseFloat E) line fn) as [H|H]; rewrite H; done.
  - intros s fn rest scanErr nSuccess nErrors Hbad Hrun Hw.
    apply (Hiff fn) in Hbad.
    destruct (parseLine (ParseFloat E) line fn) as [apps err] eqn:Hparse.
    simpl in Hbad. subst err. split.
    + eexists. by eapply step_scan_error.
    + intros s' Hstep. inversion Hstep; subst; simplify_eq;
        match goal with
        | H : parseLine _ _ _ = _ |- _ => rewrite Hparse in H; simplify_eq
        end.
      state_simpl. rewrite lookup_insert_eq. split_and!; try done.
      apply int64_id.
Qed.

Lemma malformed_line_counted_witness :
  exists s', step Sample.env3 (Reader Sample.file1) Sample.opened3 s'.
Proof.
  destruct (malformed_line_counted Sample.env3 Sample.lineShort) as (_ & _ & H).
  destruct (H Sample.opened3 Sample.file1 [Sample.lineUnknown] None 0 0) as [Hex _].
  - left. vm_compute. discriminate.
  - reflexivity.
  - reflexivity.
  - exact Hex.
Defined.

(** C7: the registry [main] builds has a nil map and keeps it in every
    state of every run. Reading and deleting an entry of it gives 0 and
    changes nothing; recording a failure panics. So a sink writer whose
    retry loop has ended with an error can make one step only, and that
    step is the panic. *)
Theorem registry_map_is_nil E s :
  reach E (main E) s ->
  stats (main E) = None /\ stats s = None /\
  (forall fn, takeAndClear (stats s) fn = (0, stats s)) /\
  (forall fn, recordFailure (stats s) fn = None) /\
  forall d val e,
    status s = Running ->
    writers s !! d = Some (SAfter val (Some e)) ->
    (exists s', step E (Writer d) s s') /\
    forall s', step E (Writer d) s s' -> status s' = Panicked /\ stats s' = None.
Proof.
  intros Hreach. pose proof (reach_stats_nil E s Hreach) as Hnil.
  rewrite Hnil. split_and!; try done.
  intros d val e Hrun Hw. split.
  - eexists. apply (step_after_panic E d s val e); [done..|]. by rewrite Hnil.
  - intros s' Hstep.
    rewrite (after_error_panics E s d val e Hreach Hw s' Hstep). done.
Qed.

Lemma registry_map_is_nil_witness :
  exists s', step Sample.env1 (Writer "idfa") Sample.failed1 s'.
Proof.
  destruct (registry_map_is_nil Sample.env1 Sample.failed1 SampleRuns.reach1_failed)
    as (_ & _ & _ & _ & H).
  destruct (H "idfa" Sample.apps1 Sample.refused) as [Hex _];
    [reflexivity|reflexivity|exact Hex].
Defined.

(** C8: when a line is decoded and its first field is none of idfa, gaid,
    adid, dvid, the reader goes to the send on the channel of that device
    type, which is nil, and stays there in every later state: it never
    reads the registry, never renames the file (no call of [os.Rename] for
    it) and is never done, so the wait group never gets back to 0. *)
Theorem unknown_device_blocks_reader E s fn text rest scanErr nSuccess nErrors apps :
  reach E (main E) s ->
  status s = Running ->
  workers s !! fn = Some (WScan (text :: rest) scanErr nSuccess nErrors) ->
  parseLine (ParseFloat E) text fn = (apps, None) ->
  nth 0 (Split text tab) "" ∉ devices ->
  (exists s1, step E (Reader fn) s s1) /\
  forall s1, step E (Reader fn) s s1 ->
  forall s', reach E s1 s' ->
    workers s' !! fn = Some (WSend apps rest scanErr (GoInt.add nSuccess 1) nErrors) /\
    renamesOf fn s' = [].
Proof.
  intros Hreach Hrun Hw Hparse Hdev. split.
  - eexists. by eapply step_scan_ok.
  - intros s1 Hstep s' Hreach'.
    assert (reach E (main E) s1) as Hreach1.
    { eapply rtc_r; [exact Hreach|]. by eexists. }
    assert (workers s' !! fn =
            Some (WSend apps rest scanErr (GoInt.add nSuccess 1) nErrors)) as Hblocked.
    { eapply nil_channel_blocks; [exact Hreach1| | |exact Hreach'].
      - inversion Hstep; subst; simplify_eq;
          match goal with
          | H : parseLine _ _ _ = _ |- _ => rewrite Hparse in H; simplify_eq
          end.
        state_simpl. apply lookup_insert_eq.
      - by rewrite (parseLine_ok _ _ _ _ Hparse). }
    split; [done|].
    assert (archivedWhenDone fn s') as Harch.
    { apply (reach_archived E). by etrans. }
    unfold archivedWhenDone in Harch. by rewrite Hblocked in Harch.
Qed.

Lemma unknown_device_blocks_reader_witness :
  exists s1, step Sample.env3 (Reader Sample.file1) Sample.counted3 s1.
Proof.
  destruct (unknown_device_blocks_reader Sample.env3 Sample.counted3 Sample.file1
              Sample.lineUnknown [] None 0 1 Sample.appsUnknown) as [Hex _].
  - exact SampleRuns.reach3_counted.
  - reflexivity.
  - reflexivity.
  - reflexivity.
  - vm_compute. intros H. repeat (apply elem_of_cons in H as [H|H]; [discriminate H|]).
    by apply elem_of_nil in H.
  - exact Hex.
Defined.




(** The literal [0.01] is the binary64 value next to one hundredth: the
    distance is at most half a unit in the last place. *)
Lemma lit_0_01_nearest : 2 * Z.abs (100 * 5764607523034235 - 2 ^ 59) <= 100.
Proof. by vm_compute. Qed.

(** C4: the end of [readFile] works on
    [adjustedSuccess = nSuccess - nSendingErrors] and on the quotient of
    [nErrors + nSendingErrors] by it, taken in [float64]; the load fails
    when [adjustedSuccess] is 0 and succeeds otherwise exactly when the
    quotient is below [NormalErrRate], which is 0.01. This holds for counts
    whose sum and difference are values of [int], as they are on every
    run. With 2 errors, 200 successes and no failed delivery the quotient
    is the float 0.01 and the load fails; with 1 error it is 0.005 and the
    load succeeds. *)
Theorem reconcile_arithmetic nSuccess nErrors nSendingErrors :
  let adjustedSuccess := nSuccess - nSendingErrors in
  let errorRate := div (of_int (nErrors + nSendingErrors)) (of_int adjustedSuccess) in
  (in_int64 (nErrors + nSendingErrors) -> in_int64 adjustedSuccess ->
   reconcile nSuccess nErrors nSendingErrors =
     (if adjustedSuccess =? 0 then LogAllErrors
      else if ltb errorRate NormalErrRate then LogAcceptable errorRate
           else LogHigh errorRate) /\
   successful (reconcile nSuccess nErrors nSendingErrors) =
     negb (adjustedSuccess =? 0) && ltb errorRate NormalErrRate) /\
  (forall E s fn,
     reach E (main E) s ->
     workers s !! fn = Some (WDisposition nSuccess nErrors nSendingErrors) ->
     in_int64 (nErrors + nSendingErrors) /\ in_int64 adjustedSuccess) /\
  NormalErrRate = lit_0_01 /\
  div (of_int (2 + 0)) (of_int (200 - 0)) = lit_0_01 /\
  reconcile 200 2 0 = LogHigh lit_0_01 /\
  div (of_int (1 + 0)) (of_int (200 - 0)) = lit_0_005 /\
  reconcile 200 1 0 = LogAcceptable lit_0_005.
Proof.
  intros adjustedSuccess errorRate. split; [|split].
  - intros He Hs.
    assert (reconcile nSuccess nErrors nSendingErrors =
            (if adjustedSuccess =? 0 then LogAllErrors
             else if ltb errorRate NormalErrRate then LogAcceptable errorRate
                  else LogHigh errorRate)) as Heq.
    { unfold reconcile, GoInt.add, GoInt.sub. by rewrite !int64_id. }
    split; [exact Heq|]. rewrite Heq.
    destruct (adjustedSuccess =? 0); [reflexivity|].
    destruct (ltb errorRate NormalErrRate); reflexivity.
  - intros E s fn Hreach Hw.
    destruct (reach_counts E s fn _ Hreach Hw) as (Hs & He & ->).
    unfold adjustedSuccess. by rewrite Z.add_0_r, Z.sub_0_r.
  - split; [reflexivity|]. repeat split; vm_compute; reflexivity.
Qed.

Lemma reconcile_arithmetic_witness :
  successful (reconcile 200 2 0) = false /\
  in_int64 (0 + 0) /\ in_int64 (1 - 0).
Proof.
  destruct (reconcile_arithmetic 200 2 0) as (H & _).
  destruct H as [_ H].
  - unfold in_int64, MinInt64, MaxInt64. lia.
  - unfold in_int64, MinInt64, MaxInt64. lia.
  - split; [rewrite H; vm_compute; reflexivity|].
    destruct (reconcile_arithmetic 1 0 0) as (_ & H' & _).
    exact (H' Sample.env1 Sample.taken1 Sample.file1 SampleRuns.reach1_taken eq_refl).
Defined.

Lemma ParseFloat_contract : ParseFloatContract Sample.ParseFloat.
Proof.
  intros s. unfold Sample.ParseFloat.
  repeat case_match; simpl; split; congruence.
Qed.

Lemma ParseFloatExp_contract : ParseFloatContract Sample2.ParseFloatExp.
Proof.
  intros s. unfold Sample2.ParseFloatExp.
  repeat case_match; try apply ParseFloat_contract; simpl; split; try congruence.
  intros _. by eexists.
Qed.

(** C9, as the code has it: a decoded line has one app id for each piece
    of its fifth field, the value [Atoi] returns cut to 32 bits. A piece on
    which [Atoi] reports a syntax error gives 0; a piece on which it
    reports a range error gives 4294967295, or 0 behind a minus sign. With
    [ParseFloat] as documented, a latitude field on which it reports a
    syntax error gives 0.0, and one on which it reports a range error
    gives the infinity it returns. None of this fails the record. *)
Theorem parseLine_permissive PF line fn r :
  parseLine PF line fn = (r, None) ->
  let lineParts := Split line tab in
  let strApps := Split (nth 4 lineParts "") comma in
  length (Apps r) = length strApps /\
  (forall (i : nat) val, strApps !! i = Some val ->
     Apps r !! i = Some (uint32 (fst (Atoi val))) /\
     (snd (Atoi val) = Some ErrSyntax -> Apps r !! i = Some 0) /\
     (snd (Atoi val) = Some ErrRange ->
      Apps r !! i = Some (if signed val then 0 else 4294967295))) /\
  (ParseFloatContract PF ->
   (snd (PF (nth 2 lineParts "")) = Some ErrSyntax -> Lat r = zero) /\
   (snd (PF (nth 2 lineParts "")) = Some ErrRange ->
    exists sign, Lat r = S754_infinity sign)).
Proof.
  intros Hparse lineParts strApps.
  rewrite (parseLine_ok PF line fn r Hparse). cbn [Apps Lat].
  fold lineParts. fold strApps. unfold parseApps. split_and!.
  - by rewrite length_map.
  - intros i val Hval.
    assert (map (fun val => uint32 (Atoi val).1) strApps !! i =
            Some (uint32 (Atoi val).1)) as Hi.
    { change (map ?f ?l) with (f <$> l). by rewrite list_lookup_fmap, Hval. }
    split_and!; [done| |].
    + intros Herr. by rewrite Hi, (Atoi_syntax val Herr).
    + intros Herr. rewrite Hi, (Atoi_range val Herr). by destruct (signed val).
  - intros Hcontract. apply Hcontract.
Qed.

Lemma parseLine_permissive_witness :
  Apps (fst (parseLine Sample.ParseFloat Sample.lineBigApp Sample.file1)) !! 1%nat =
  Some 4294967295 /\
  exists sign,
    Lat (fst (parseLine Sample2.ParseFloatExp Sample2.lineBigLat Sample.file1)) =
    S754_infinity sign.
Proof.
  split.
  - destruct (parseLine_permissive Sample.ParseFloat Sample.lineBigApp Sample.file1
                (fst (parseLine Sample.ParseFloat Sample.lineBigApp Sample.file1))
                eq_refl) as (_ & H & _).
    destruct (H 1%nat "9223372036854775808" eq_refl) as (_ & _ & Hrange).
    exact (Hrange eq_refl).
  - destruct (parseLine_permissive Sample2.ParseFloatExp Sample2.lineBigLat
                Sample.file1
                (fst (parseLine Sample2.ParseFloatExp Sample2.lineBigLat Sample.file1))
                eq_refl) as (_ & _ & H).
    destruct (H ParseFloatExp_contract) as [_ Hrange].
    exact (Hrange eq_refl).
Defined.

(** C9, counterexample, on three decoded lines. The second app id of the
    first line does not fit [int]: [Atoi] fails on it and the app id is
    4294967295, not 0. The latitude of the second line is beyond the
    largest float: [ParseFloat] fails on it and the latitude is the
    infinity, not 0.0. The longitude field of the third line is no number:
    [ParseFloat] fails on it, and the longitude is the float 55.55 of the
    latitude field, not 0.0. *)
Lemma failed_fields_not_zero :
  (snd (parseLine Sample.ParseFloat Sample.lineBigApp Sample.file1) = None /\
   nth 4 (Split Sample.lineBigApp tab) "" = "1423,9223372036854775808" /\
   snd (Atoi "9223372036854775808") = Some ErrRange /\
   Apps (fst (parseLine Sample.ParseFloat Sample.lineBigApp Sample.file1)) =
     [1423; 4294967295]) /\
  (snd (parseLine Sample2.ParseFloatExp Sample2.lineBigLat Sample.file1) = None /\
   nth 2 (Split Sample2.lineBigLat tab) "" = "1e400" /\
   Sample2.ParseFloatExp "1e400" = (S754_infinity false, Some ErrRange) /\
   Lat (fst (parseLine Sample2.ParseFloatExp Sample2.lineBigLat Sample.file1)) =
     S754_infinity false) /\
  (snd (parseLine Sample.ParseFloat Sample2.lineBadLon Sample.file1) = None /\
   nth 3 (Split Sample2.lineBadLon tab) "" = "abc" /\
   Sample.ParseFloat "abc" = (zero, Some ErrSyntax) /\
   Lon (fst (parseLine Sample.ParseFloat Sample2.lineBadLon Sample.file1)) =
     fst (Sample.ParseFloat "55.55") /\
   eqb (Lon (fst (parseLine Sample.ParseFloat Sample2.lineBadLon Sample.file1)))
       zero = false).
Proof. by vm_compute. Qed.

(** C2, the code at a well-formed line: the longitude of the record is
    read from the third field, the latitude field, and not from the
    fourth, whatever [ParseFloat] is. The line holds 55.55 and 42.42; both
    [Lat] and [Lon] are the float 55.55, which differs from the float
    42.42. *)
Theorem longitude_read_from_latitude_field :
  nth 2 (Split Sample.line1 tab) "" = "55.55" /\
  nth 3 (Split Sample.line1 tab) "" = "42.42" /\
  (forall PF : string -> float64 * option NumError,
     snd (parseLine PF Sample.line1 Sample.file1) = None /\
     Lat (fst (parseLine PF Sample.line1 Sample.file1)) = fst (PF "55.55") /\
     Lon (fst (parseLine PF Sample.line1 Sample.file1)) = fst (PF "55.55")) /\
  Lat Sample.apps1 = fst (Sample.ParseFloat "55.55") /\
  Lon Sample.apps1 = fst (Sample.ParseFloat "55.55") /\
  eqb (Lon Sample.apps1) (fst (Sample.ParseFloat "42.42")) = false.
Proof.
  split; [by vm_compute|]. split; [by vm_compute|]. split.
  - intros PF. unfold Sample.line1. rewrite parseLine_Join; [done| |done|done].
    repeat constructor.
  - by vm_compute.
Qed.

(** C5, the code when every [Set] fails: the loop makes its 3 calls and
    leaves the error; the sink writer logs it and then panics on the nil
    map of the registry, in which nothing is recorded. *)
Theorem exhausted_retries_panic :
  retryLoop Sample.down (maxRetry Sample.env1) = (3%nat, Some Sample.refused) /\
  reach Sample.env1 (main Sample.env1) Sample.failed1 /\
  step Sample.env1 (Writer "idfa") Sample.failed1 Sample.panicked1 /\
  status Sample.panicked1 = Panicked /\
  stats Sample.panicked1 = None.
Proof.
  split_and!; try done.
  - apply SampleRuns.reach1_failed.
  - apply SampleRuns.run1_panic.
Qed.

(** * Further properties *)

(** ** The decoder *)

Lemma Split_length s sep : length (Split s sep) = S (countByte s sep).
Proof.
  induction s as [|c s IH]; simpl; [done|].
  destruct (Ascii.eqb c sep); simpl; [by rewrite IH|].
  destruct (Split s sep); simpl in *; congruence.
Qed.

Lemma Split_pieces s sep : Forall (fun f => contains f sep = false) (Split s sep).
Proof.
  induction s as [|c s IH]; simpl; [by repeat constructor|].
  destruct (Ascii.eqb c sep) eqn:Hc; [by constructor|].
  destruct (Split s sep) as [|f fs]; [by repeat constructor; simpl; rewrite Hc|].
  apply Forall_cons in IH as [Hf Hfs]. constructor; [|done]. simpl. by rewrite Hc.
Qed.

Lemma Join_Split s sep : Join (Split s sep) sep = s.
Proof.
  induction s as [|c s IH]; simpl; [done|].
  destruct (Ascii.eqb_spec c sep) as [->|Hc].
  - pose proof (Split_length s sep) as Hlen.
    destruct (Split s sep) as [|f fs]; [done|].
    change (Join ("" :: f :: fs) sep) with (String sep (Join (f :: fs) sep)).
    by rewrite IH.
  - destruct (Split s sep) as [|f fs] eqn:Hsplit.
    + by pose proof (Split_length s sep) as Hlen; rewrite Hsplit in Hlen.
    + destruct fs as [|f' fs']; simpl in *; by rewrite <- IH.
Qed.

Lemma nth_Forall {A} (P : A -> Prop) (l : list A) (i : nat) (d : A) :
  Forall P l -> (i < length l)%nat -> P (nth i l d).
Proof.
  intros Hall. revert i. induction Hall as [|x l Hx Hl IH]; intros [|i] Hi; simpl in *;
    try lia; [done|]. apply IH. lia.
Qed.

Lemma malformed_spec PF line fn :
  snd (parseLine PF line fn) = (if malformed line then Some ErrParseLine else None).
Proof.
  unfold parseLine, malformed.
  destruct (negb _); [done|]. simpl. by destruct (_ || _).
Qed.

Lemma parseLine_ok_iff PF line fn :
  snd (parseLine PF line fn) = None <->
  countByte line tab = 4%nat /\
  nth 0 (Split line tab) "" <> "" /\ nth 1 (Split line tab) "" <> "".
Proof.
  pose proof (parseLine_error_iff PF line fn) as Herr.
  pose proof (parseLine_error_cases PF line fn) as Hcases.
  rewrite Split_length in Herr. split.
  - intros Hok. rewrite Hok in Herr. destruct Herr as [_ Hbad].
    split_and!.
    + destruct (decide (countByte line tab = 4%nat)) as [H4|H4]; [done|].
      exfalso. assert (@None error = Some ErrParseLine); [|done].
      apply Hbad. left. lia.
    + intros H. assert (@None error = Some ErrParseLine); [auto|done].
    + intros H. assert (@None error = Some ErrParseLine); [auto|done].
  - intros (H4 & H0 & H1). destruct Hcases as [Hok|Hbad]; [done|].
    apply Herr in Hbad as [?|[?|?]]; [lia|done|done].
Qed.

(** X1: a line is decoded exactly when it has four tabs and its first two
    fields are not empty; the pieces [parseLine] works on have no tab, and
    joined by tabs they are the line. *)
Theorem decodes_iff_four_tabs PF line fn :
  (snd (parseLine PF line fn) = None <->
   countByte line tab = 4%nat /\
   nth 0 (Split line tab) "" <> "" /\ nth 1 (Split line tab) "" <> "") /\
  Forall (fun f => contains f tab = false) (Split line tab) /\
  Join (Split line tab) tab = line.
Proof.
  split; [apply parseLine_ok_iff|]. split; [apply Split_pieces|apply Join_Split].
Qed.

(** X2: a decoded record has a device type and a device id that are not empty
    and hold no tab, carries the name of its file, and has one app id for
    each comma-separated piece of the fifth field, at least one, each
    within [uint32]. *)
Theorem decoded_record_wellformed PF line fn r :
  parseLine PF line fn = (r, None) ->
  DevType r <> "" /\ DevId r <> "" /\
  contains (DevType r) tab = false /\ contains (DevId r) tab = false /\
  FileName r = fn /\
  length (Apps r) = S (countByte (nth 4 (Split line tab) "") comma) /\
  Forall (fun a => 0 <= a < 2 ^ 32) (Apps r).
Proof.
  intros Hparse.
  assert (snd (parseLine PF line fn) = None) as Hok by (by rewrite Hparse).
  apply parseLine_ok_iff in Hok as (H4 & H0 & H1).
  rewrite (parseLine_ok PF line fn r Hparse). cbn [DevType DevId FileName Apps].
  assert (length (Split line tab) = 5%nat) as Hlen by (rewrite Split_length; lia).
  split_and!; try done.
  - apply (nth_Forall _ _ _ _ (Split_pieces line tab)). lia.
  - apply (nth_Forall _ _ _ _ (Split_pieces line tab)). lia.
  - unfold parseApps. by rewrite length_map, Split_length.
  - unfold parseApps. apply Forall_forall. intros a Ha.
    apply list_elem_of_In, in_map_iff in Ha as (val & <- & _). unfold uint32.
    apply Z.mod_pos_bound. lia.
Qed.

Lemma decoded_record_wellformed_witness :
  DevType Sample.apps1 = "idfa" /\ length (Apps Sample.apps1) = 6%nat.
Proof.
  destruct (decoded_record_wellformed Sample.ParseFloat Sample.line1 Sample.file1
              Sample.apps1 eq_refl) as (_ & _ & _ & _ & _ & Hlen & _).
  split; [reflexivity|]. rewrite Hlen. reflexivity.
Defined.

(** ** App ids written as decimal numerals *)

Lemma isDigit_digitVal c : isDigit c = true -> 0 <= digitVal c <= 9.
Proof.
  unfold isDigit, digitVal. intros [H1 H2]%andb_true_iff.
  apply Z.leb_le in H1, H2. lia.
Qed.

Lemma decimalValue_ge s acc v : 0 <= acc -> decimalValue s acc = Some v -> acc <= v.
Proof.
  revert acc. induction s as [|c s IH]; intros acc Hacc; simpl; [intros [= ->]; lia|].
  destruct (isDigit c) eqn:Hc; [|done]. intros Hv.
  apply isDigit_digitVal in Hc. unfold digitVal in *. apply IH in Hv; lia.
Qed.

Lemma parseUintLoop_decimal s n v :
  0 <= n -> decimalValue s n = Some v -> v <= MaxUint64 ->
  parseUintLoop s n = (v, None).
Proof.
  revert n. induction s as [|c s IH]; intros n Hn; simpl; [by intros [= ->]|].
  destruct (isDigit c) eqn:Hc; [|done]. intros Hv Hmax.
  pose proof (isDigit_digitVal c Hc) as Hd. unfold digitVal in *.
  assert (n * 10 + (Z.of_nat (nat_of_ascii c) - 48) <= v) as Hge.
  { apply (decimalValue_ge s); [lia|done]. }
  unfold MaxUint64 in *.
  assert ((2 ^ 64 - 1) / 10 + 1 = 1844674407370955162) as -> by reflexivity.
  destruct (Z.geb_spec n 1844674407370955162) as [Hcut|Hcut]; [lia|].
  destruct (Z.gtb_spec (n * 10 + (Z.of_nat (nat_of_ascii c) - 48)) (2 ^ 64 - 1))
    as [Hov|Hov]; [lia|].
  apply IH; [lia|done|done].
Qed.

Lemma Atoi_decimal s v :
  s <> "" -> decimalValue s 0 = Some v -> v <= MaxInt64 -> Atoi s = (v, None).
Proof.
  intros Hs Hv Hmax. destruct s as [|c s]; [done|].
  unfold Atoi, ParseInt.
  assert (isDigit c = true) as Hc.
  { simpl in Hv. by destruct (isDigit c). }
  assert (Ascii.eqb c "-" = false /\ Ascii.eqb c "+" = false) as [Hminus Hplus].
  { split; apply Ascii.eqb_neq; intros ->; done. }
  rewrite Hminus, Hplus. cbn [orb negb andb].
  assert (ParseUint (String c s) = (v, None)) as ->.
  { unfold ParseUint. apply parseUintLoop_decimal; [done|done|].
    unfold MaxInt64, MaxUint64 in *. lia. }
  unfold MaxInt64 in Hmax.
  destruct (Z.geb_spec v (2 ^ 63)) as [Hge|Hge]; [lia|done].
Qed.

(** X3: an app id written as a decimal numeral that fits [int] is decoded to
    the number it denotes, cut to 32 bits: below 2^32 it is kept as it is,
    from 2^32 on it silently wraps around. *)
Theorem decimal_app_id (strApps : list string) (i : nat) s v :
  strApps !! i = Some s ->
  s <> "" -> decimalValue s 0 = Some v -> v <= MaxInt64 ->
  snd (Atoi s) = None /\
  parseApps strApps !! i = Some (v mod 2 ^ 32) /\
  (v < 2 ^ 32 -> parseApps strApps !! i = Some v).
Proof.
  intros Hi Hs Hv Hmax. rewrite (Atoi_decimal s v Hs Hv Hmax).
  assert (parseApps strApps !! i = Some (v mod 2 ^ 32)) as Happ.
  { unfold parseApps. change (map ?f ?l) with (f <$> l).
    rewrite list_lookup_fmap, Hi. simpl.
    by rewrite (Atoi_decimal s v Hs Hv Hmax). }
  split_and!; [done|done|].
  intros Hlt. rewrite Happ. f_equal. apply Z.mod_small.
  pose proof (decimalValue_ge s 0 v ltac:(lia) Hv). lia.
Qed.

Lemma decimal_app_id_witness :
  parseApps ["1423"; "4294967297"] !! 1%nat = Some 1.
Proof.
  destruct (decimal_app_id ["1423"; "4294967297"] 1 "4294967297" 4294967297)
    as (_ & H & _).
  - reflexivity.
  - discriminate.
  - reflexivity.
  - unfold MaxInt64. lia.
  - exact H.
Defined.

(** ** The retry loop, further *)

Lemma retry_error_iff sets fuel i err :
  snd (retry sets fuel i err) <> None <->
  (fuel = O /\ err <> None) \/
  ((0 < fuel)%nat /\ forall j, (j < fuel)%nat -> sets (i + j)%nat <> None).
Proof.
  revert i err. induction fuel as [|fuel IH]; intros i err; simpl.
  - split; [auto|]. intros [[_ H]|[H _]]; [done|lia].
  - destruct (sets i) as [e|] eqn:Hi; simpl.
    + rewrite IH. split.
      * intros H. right. split; [lia|]. intros [|j] Hj.
        { by rewrite Nat.add_0_r, Hi. }
        destruct H as [[-> _]|[_ H]]; [lia|].
        replace (i + S j)%nat with (S i + j)%nat by lia. apply H. lia.
      * intros [[? _]|[_ H]]; [done|]. destruct fuel as [|fuel']; [by left|].
        right. split; [lia|]. intros j Hj.
        replace (S i + j)%nat with (i + S j)%nat by lia. apply H. lia.
    + split; [done|]. intros [[? _]|[_ H]]; [done|].
      exfalso. apply (H O); [lia|]. by rewrite Nat.add_0_r.
Qed.

(** X4: the loop leaves an error exactly when [maxRetry] is positive and each
    of the [maxRetry] calls of [Set] fails; it never makes more than
    [maxRetry] calls. *)
Theorem retryLoop_error_iff sets maxRetry :
  (snd (retryLoop sets maxRetry) <> None <->
   0 < maxRetry /\ forall j, Z.of_nat j < maxRetry -> sets j <> None) /\
  Z.of_nat (fst (retryLoop sets maxRetry)) <= Z.max 0 maxRetry.
Proof.
  split; [|apply retryLoop_at_most]. unfold retryLoop. rewrite retry_error_iff.
  split.
  - intros [[_ H]|[Hpos H]]; [done|]. split; [lia|]. intros j Hj. apply (H j). lia.
  - intros [Hpos H]. right. split; [lia|]. intros j Hj. apply (H j). lia.
Qed.



(** ** The registry, further *)

(** X6: after the read-and-clear of a file, a second one gives 0 and changes
    nothing, on the nil map and on an allocated one; the counts of the
    other files are what they were. *)
Theorem take_twice (stats : option (gmap string Z)) fn :
  let taken := snd (takeAndClear stats fn) in
  takeAndClear taken fn = (0, taken) /\
  forall fn', fn' <> fn ->
              fst (takeAndClear taken fn') = fst (takeAndClear stats fn').
Proof.
  destruct stats as [m|]; simpl; [|done]. split.
  - by rewrite lookup_delete_eq, delete_delete_eq.
  - intros fn' Hne. by rewrite lookup_delete_ne.
Qed.

Lemma recordFailures_allocated (m : gmap string Z) fn (n : nat) :
  in_int64 (default 0 (m !! fn)) ->
  in_int64 (default 0 (m !! fn) + Z.of_nat n) ->
  recordFailures n (Some m) fn =
  Some (match n with
        | O => m
        | S _ => <[fn := default 0 (m !! fn) + Z.of_nat n]> m
        end).
Proof.
  intros Hc. induction n as [|n IH]; intros Hn; [done|].
  unfold recordFailures in *. rewrite Nat.iter_succ, IH.
  2:{ unfold in_int64, MinInt64, MaxInt64 in *. lia. }
  unfold recordFailure. f_equal. destruct n as [|n'].
  - unfold GoInt.add. rewrite int64_id by done. f_equal; lia.
  - rewrite lookup_insert_eq. cbn [default]. unfold id. rewrite insert_insert_eq.
    unfold GoInt.add. rewrite int64_id; [f_equal; lia|].
    replace (default 0 (m !! fn) + Z.of_nat (S n') + 1)
      with (default 0 (m !! fn) + Z.of_nat (S (S n'))) by lia. done.
Qed.

(** X7: on an allocated map, [n] failures recorded for a file and then the
    read-and-clear: the reader gets the former count plus [n], the entry
    is gone, and the entries of the other files have not changed. *)
Theorem recorded_failures_are_taken (m : gmap string Z) fn (n : nat) :
  in_int64 (default 0 (m !! fn)) ->
  in_int64 (default 0 (m !! fn) + Z.of_nat n) ->
  exists m',
    recordFailures n (Some m) fn = Some m' /\
    takeAndClear (Some m') fn = (default 0 (m !! fn) + Z.of_nat n, Some (delete fn m)) /\
    forall fn', fn' <> fn -> m' !! fn' = m !! fn'.
Proof.
  intros Hc Hn. eexists. split; [by apply recordFailures_allocated|].
  destruct n as [|n]; simpl.
  - split; [|done]. f_equal. lia.
  - rewrite lookup_insert_eq, delete_insert_eq. split; [done|].
    intros fn' Hne. by rewrite lookup_insert_ne.
Qed.

Lemma recorded_failures_are_taken_witness :
  exists m', recordFailures 3 (Some (∅ : gmap string Z)) Sample.file1 = Some m' /\
             takeAndClear (Some m') Sample.file1 = (3, Some (delete Sample.file1 ∅)).
Proof.
  destruct (recorded_failures_are_taken ∅ Sample.file1 3) as (m' & H1 & H2 & _).
  - rewrite lookup_empty. unfold in_int64, MinInt64, MaxInt64. simpl. lia.
  - rewrite lookup_empty. unfold in_int64, MinInt64, MaxInt64. simpl. lia.
  - exists m'. split; [exact H1|]. rewrite lookup_empty in H2. exact H2.
Defined.

(** ** The archive name, further *)

Lemma append_String c s t : (String c s ++ t)%string = String c (s ++ t)%string.
Proof. reflexivity. Qed.

Lemma append_empty t : ("" ++ t)%string = t.
Proof. reflexivity. Qed.

Lemma contains_append s t c :
  contains (s ++ t)%string c = contains s c || contains t c.
Proof.
  induction s as [|a s IH]; [done|].
  rewrite append_String. simpl. by rewrite IH, orb_assoc.
Qed.

Lemma length_append s t :
  String.length (s ++ t)%string = (String.length s + String.length t)%nat.
Proof. induction s as [|a s IH]; [done|]. rewrite append_String. simpl. by rewrite IH. Qed.

Lemma append_assoc s t u : ((s ++ t) ++ u)%string = (s ++ (t ++ u))%string.
Proof. induction s as [|a s IH]; [done|]. rewrite !append_String. by rewrite IH. Qed.

Lemma append_cancel_r s1 s2 t : (s1 ++ t)%string = (s2 ++ t)%string -> s1 = s2.
Proof.
  revert s2. induction s1 as [|a s1 IH]; intros [|b s2] H.
  - done.
  - apply (f_equal String.length) in H. rewrite !length_append in H. simpl in H. lia.
  - apply (f_equal String.length) in H. rewrite !length_append in H. simpl in H. lia.
  - rewrite !append_String in H. injection H as -> H. f_equal. by apply IH.
Qed.

Lemma splitPath_no_separator path :
  contains path "/" = false -> splitPath path = ("", path).
Proof.
  destruct path as [|c rest]; [done|]. simpl.
  intros [Hc Hrest]%orb_false_iff. by rewrite Hrest, Hc.
Qed.

Lemma splitPath_append dir base :
  contains base "/" = false ->
  splitPath (dir ++ String "/" base)%string = ((dir ++ "/")%string, base).
Proof.
  intros Hbase. induction dir as [|c dir IH].
  - rewrite !append_empty. simpl. by rewrite Hbase.
  - rewrite !append_String. simpl. rewrite IH, contains_append. simpl.
    by rewrite orb_true_r.
Qed.

Lemma splitPath_archiveName filename :
  splitPath (archiveName filename) =
  (((splitPath filename).1 ++ "/")%string, String "." (splitPath filename).2).
Proof.
  rewrite archiveName_spec.
  destruct (splitPath_spec filename) as (_ & Hbase & _).
  change ((splitPath filename).1 ++ "/." ++ (splitPath filename).2)%string
    with ((splitPath filename).1 ++ String "/" (String "." (splitPath filename).2))%string.
  apply splitPath_append. simpl. by rewrite Hbase.
Qed.

Lemma archiveName_length filename :
  String.length (archiveName filename) = (String.length filename + 2)%nat.
Proof.
  rewrite archiveName_spec.
  destruct (splitPath_spec filename) as (Hpath & _ & _).
  rewrite <- Hpath at 3. rewrite !length_append. simpl. lia.
Qed.

(** X8: two different file names never get the same new name, and the new
    name, two bytes longer than the old one, is never the old one. *)
Theorem archiveName_injective f1 f2 :
  (archiveName f1 = archiveName f2 -> f1 = f2) /\
  String.length (archiveName f1) = (String.length f1 + 2)%nat /\
  archiveName f1 <> f1.
Proof.
  pose proof (archiveName_length f1) as Hlen.
  split_and!; [|done|].
  - intros Heq. apply (f_equal splitPath) in Heq.
    rewrite !splitPath_archiveName in Heq. injection Heq as Hdir Hbase.
    apply append_cancel_r in Hdir.
    destruct (splitPath_spec f1) as (<- & _ & _).
    destruct (splitPath_spec f2) as (<- & _ & _). by rewrite Hdir, Hbase.
  - intros Heq. rewrite Heq in Hlen. lia.
Qed.

Lemma archiveName_injective_witness : Sample.file1 = Sample.file1.
Proof.
  destruct (archiveName_injective Sample.file1 Sample.file1) as (H & _ & _).
  exact (H eq_refl).
Defined.

(** X9: a file name with a directory keeps the directory, followed by a second
    separator and the dot; a file name without a separator is renamed to
    a dotted name in the root directory, not in its own. *)
Theorem archiveName_cases dir base :
  contains base "/" = false ->
  archiveName (dir ++ String "/" base)%string = (dir ++ "//." ++ base)%string /\
  archiveName base = ("/." ++ base)%string.
Proof.
  intros Hbase. unfold archiveName.
  rewrite splitPath_append, splitPath_no_separator by done. split; [|done].
  by rewrite append_assoc.
Qed.

Lemma archiveName_cases_witness :
  archiveName "/data/a.tsv.gz" = "/data//.a.tsv.gz" /\
  archiveName "a.tsv.gz" = "/.a.tsv.gz".
Proof. exact (archiveName_cases "/data" "a.tsv.gz" eq_refl). Defined.

(** ** The memcached key *)

Lemma colon_split s1 t1 s2 t2 :
  contains s1 ":" = false -> contains s2 ":" = false ->
  (s1 ++ String ":" t1)%string = (s2 ++ String ":" t2)%string ->
  s1 = s2 /\ t1 = t2.
Proof.
  revert s2. induction s1 as [|a s1 IH]; intros [|b s2] H1 H2 Heq.
  - rewrite !append_empty in Heq. by injection Heq.
  - rewrite append_empty, append_String in Heq. injection Heq as <- _.
    simpl in H2. done.
  - rewrite append_empty, append_String in Heq. injection Heq as -> _.
    simpl in H1. done.
  - rewrite !append_String in Heq. injection Heq as -> Heq.
    simpl in H1, H2. apply orb_false_iff in H1 as [_ H1], H2 as [_ H2].
    destruct (IH s2 H1 H2 Heq) as [-> ->]. done.
Qed.

Lemma devices_no_colon d : d ∈ devices -> contains d ":" = false.
Proof.
  unfold devices. intros H.
  repeat (apply elem_of_cons in H as [->|H]; [reflexivity|]).
  by apply elem_of_nil in H.
Qed.

(** X10: two records that go to sink writers with the same key have the same
    device type and the same device id: no key is shared between two
    device types. In general this holds when the device types hold no
    colon. *)
Theorem memcacheKey_injective r1 r2 :
  (DevType r1 ∈ devices /\ DevType r2 ∈ devices \/
   contains (DevType r1) ":" = false /\ contains (DevType r2) ":" = false) ->
  memcacheKey r1 = memcacheKey r2 ->
  DevType r1 = DevType r2 /\ DevId r1 = DevId r2.
Proof.
  intros Hdev Hkey.
  assert (contains (DevType r1) ":" = false /\ contains (DevType r2) ":" = false)
    as [H1 H2].
  { destruct Hdev as [[H1 H2]|H]; [|done]. by split; apply devices_no_colon. }
  by apply (colon_split _ _ _ _ H1 H2).
Qed.

Lemma memcacheKey_injective_witness :
  DevType Sample.apps1 = DevType Sample.apps1 /\ DevId Sample.apps1 = DevId Sample.apps1.
Proof.
  apply (memcacheKey_injective Sample.apps1 Sample.apps1).
  - right. split; reflexivity.
  - reflexivity.
Defined.

(** ** Runs: routing and bounds of the channels *)

Section RunFacts.

Variable E : env.

Lemma main_channel_lookup d q :
  channels (main E) !! d = Some q -> d ∈ devices /\ q = [].
Proof.
  intros H. apply elem_of_list_to_map_2, list_elem_of_fmap in H.
  destruct H as (d' & [= -> ->] & Hd). done.
Qed.

Lemma main_writer_lookup d w :
  writers (main E) !! d = Some w -> d ∈ devices /\ w = SRecv.
Proof.
  intros H. apply elem_of_list_to_map_2, list_elem_of_fmap in H.
  destruct H as (d' & [= -> ->] & Hd). done.
Qed.

Lemma reach_routed s : reach E (main E) s -> routed s.
Proof.
  apply (reach_invariant E routed).
  - split.
    + intros d q [Hd ->]%main_channel_lookup. by split.
    + intros d w [Hd ->]%main_writer_lookup. by split.
  - intros a s0 s' [Hch Hwr] Hstep. unfold routed.
    step_cases Hstep; try (by split).
    + (* send *)
      split; [|done]. intros d' q'.
      destruct (decide (DevType apps = d')) as [<-|Hne].
      * rewrite lookup_insert_eq. intros [= <-].
        destruct (Hch _ _ H1) as [Hd Hq]. split; [done|].
        apply Forall_app. split; [done|]. by constructor.
      * rewrite lookup_insert_ne by done. apply Hch.
    + (* direct send *)
      split; [done|]. intros d' w'.
      destruct (decide (DevType apps = d')) as [<-|Hne].
      * rewrite lookup_insert_eq. intros [= <-].
        destruct (Hwr _ _ H2) as [Hd _]. by split.
      * rewrite lookup_insert_ne by done. apply Hwr.
    + (* receive *)
      destruct (Hch _ _ H1) as [Hd Hq]. apply Forall_cons in Hq as [Hval Hq].
      split.
      * intros d' q'. destruct (decide (d = d')) as [<-|Hne].
        -- rewrite lookup_insert_eq. by intros [= <-].
        -- rewrite lookup_insert_ne by done. apply Hch.
      * intros d' w'. destruct (decide (d = d')) as [<-|Hne].
        -- rewrite lookup_insert_eq. by intros [= <-].
        -- rewrite lookup_insert_ne by done. apply Hwr.
    + (* retry loop *)
      split; [done|]. intros d' w'. destruct (decide (d = d')) as [<-|Hne].
      * rewrite lookup_insert_eq. intros [= <-]. apply (Hwr _ _ H0).
      * rewrite lookup_insert_ne by done. apply Hwr.
    + split; [done|]. intros d' w'. destruct (decide (d = d')) as [<-|Hne].
      * rewrite lookup_insert_eq. intros [= <-]. by destruct (Hwr _ _ H0).
      * rewrite lookup_insert_ne by done. apply Hwr.
    + split; [done|]. intros d' w'. destruct (decide (d = d')) as [<-|Hne].
      * rewrite lookup_insert_eq. intros [= <-]. by destruct (Hwr _ _ H0).
      * rewrite lookup_insert_ne by done. apply Hwr.
Qed.

Lemma reach_bounded s d q :
  reach E (main E) s -> channels s !! d = Some q ->
  Z.of_nat (length q) <= Z.max 0 (channelSize E).
Proof.
  intros Hreach. revert d q.
  apply (reach_invariant E
           (fun s => forall d q, channels s !! d = Some q ->
                                 Z.of_nat (length q) <= Z.max 0 (channelSize E)))
    with (s0 := main E); [| |done].
  - intros d q [_ ->]%main_channel_lookup. simpl. lia.
  - intros a s0 s' IH Hstep. step_cases Hstep; try done.
    + intros d' q'. destruct (decide (DevType apps = d')) as [<-|Hne].
      * rewrite lookup_insert_eq. intros [= <-]. rewrite length_app. simpl. lia.
      * rewrite lookup_insert_ne by done. apply IH.
    + intros d' q'. destruct (decide (d = d')) as [<-|Hne].
      * rewrite lookup_insert_eq. intros [= <-]. specialize (IH _ _ H1).
        simpl in IH. lia.
      * rewrite lookup_insert_ne by done. apply IH.
Qed.

End RunFacts.

(** X11: on every run, a record waits only in the channel of its own device
    type and is held only by the sink writer of that device type, which is
    one of idfa, gaid, adid, dvid: two records of one device type never go
    to two sink writers. *)
Theorem records_routed_by_device_type E s :
  reach E (main E) s ->
  (forall d q r, channels s !! d = Some q -> r ∈ q -> DevType r = d /\ d ∈ devices) /\
  (forall d r, writers s !! d = Some (SLoop r) -> DevType r = d /\ d ∈ devices) /\
  (forall d r err, writers s !! d = Some (SAfter r err) -> DevType r = d /\ d ∈ devices).
Proof.
  intros [Hch Hwr]%reach_routed. split_and!.
  - intros d q r Hq Hr. destruct (Hch d q Hq) as [Hd Hall].
    split; [|done]. by apply (proj1 (Forall_forall _ _) Hall).
  - intros d r Hw. by destruct (Hwr d _ Hw).
  - intros d r err Hw. by destruct (Hwr d _ Hw).
Qed.

Lemma records_routed_by_device_type_witness :
  DevType Sample.apps1 = "idfa" /\ "idfa" ∈ devices.
Proof.
  destruct (records_routed_by_device_type Sample.env1 Sample.failed1
              SampleRuns.reach1_failed) as (_ & _ & H).
  exact (H "idfa" Sample.apps1 (Some Sample.refused) eq_refl).
Defined.

(** X12: on every run a channel never holds more records than its capacity
    [queue_size] (none when the capacity is 0). *)
Theorem channels_bounded E s d q :
  reach E (main E) s -> channels s !! d = Some q ->
  Z.of_nat (length q) <= Z.max 0 (channelSize E) /\ d ∈ devices.
Proof.
  intros Hreach Hq. split; [by apply (reach_bounded E s d q)|].
  destruct (reach_routed E s Hreach) as [Hch _]. by destruct (Hch d q Hq).
Qed.

Lemma channels_bounded_witness : Z.of_nat (length [Sample.apps1]) <= Z.max 0 10.
Proof.
  destruct (channels_bounded Sample.env1 Sample.scanned1 "idfa" [Sample.apps1]
              SampleRuns.reach1_scanned eq_refl) as [H _].
  exact H.
Defined.

(** ** Runs: what the readers count *)

Lemma nDecoded_app done text :
  nDecoded (done ++ [text]) = nDecoded done + (if malformed text then 0 else 1).
Proof.
  unfold nDecoded. rewrite List.filter_app, length_app. simpl.
  destruct (malformed text); simpl; lia.
Qed.

Lemma nMalformed_app done text :
  nMalformed (done ++ [text]) = nMalformed done + (if malformed text then 1 else 0).
Proof.
  unfold nMalformed. rewrite List.filter_app, length_app. simpl.
  destruct (malformed text); simpl; lia.
Qed.

(** Each line is either decoded or malformed. *)
Lemma nDecoded_nMalformed lines :
  nDecoded lines + nMalformed lines = Z.of_nat (length lines) /\
  0 <= nDecoded lines /\ 0 <= nMalformed lines.
Proof.
  unfold nDecoded, nMalformed. split; [|lia].
  induction lines as [|l lines IH]; [done|]. simpl.
  destruct (malformed l); simpl in *; lia.
Qed.

Lemma nDecoded_all_malformed lines :
  Forall (fun l => malformed l = true) lines -> nDecoded lines = 0.
Proof.
  unfold nDecoded. induction 1 as [|l lines Hl _ IH]; [done|]. simpl. by rewrite Hl.
Qed.

Section ReaderFacts.

Variable E : env.
Variable fn : string.
Variable lines : list string.
Variable scanErr : option error.
Hypothesis Hfile : files E fn = Lines lines scanErr.
Hypothesis Hsize : Z.of_nat (length lines) <= MaxInt64.

Lemma prefix_counts done rest :
  lines = (done ++ rest)%list ->
  0 <= nDecoded done /\ 0 <= nMalformed done /\
  nDecoded done + nMalformed done + Z.of_nat (length rest) <= MaxInt64.
Proof.
  intros Hl. destruct (nDecoded_nMalformed done) as (Hsum & H1 & H2).
  rewrite Hl, length_app in Hsize. lia.
Qed.

Lemma reach_readerCounts s w :
  reach E (main E) s -> workers s !! fn = Some w ->
  readerCounts (ParseFloat E) fn lines scanErr w.
Proof.
  intros Hreach. revert w. revert s Hreach.
  apply (rtc_ind_r (fun s => forall w, workers s !! fn = Some w ->
                                       readerCounts (ParseFloat E) fn lines scanErr w)).
  { intros w Hw. by rewrite (main_workers E fn w Hw). }
  intros s s' Hs [a Hstep] IH.
  pose proof (reach_stats_nil E s Hs) as Hnil.
  intros w. step_cases Hstep; try (by apply IH);
    (destruct (decide (fn0 = fn)) as [->|Hne];
     [rewrite lookup_insert_eq | rewrite lookup_insert_ne by done; by apply IH]);
    intros [= <-];
    match goal with
    | H : workers _ !! _ = Some _ |- _ => apply IH in H; simpl in H
    end; simpl; try done.
  - (* open *)
    rewrite Hfile in H1. injection H1 as -> ->.
    split; [done|]. by exists [].
  - (* a malformed line *)
    destruct H0 as (-> & done & Hl & -> & ->). split; [done|].
    exists (done ++ [text])%list.
    assert (malformed text = true) as Hbad.
    { pose proof (malformed_spec (ParseFloat E) text fn) as Hm. rewrite H1 in Hm.
      simpl in Hm. by destruct (malformed text). }
    rewrite <- app_assoc, nDecoded_app, nMalformed_app, Hbad. simpl.
    split_and!; [done|lia|].
    destruct (prefix_counts done (text :: rest) Hl) as (? & ? & Hle).
    simpl length in Hle. unfold GoInt.add. rewrite int64_id; [done|].
    unfold in_int64, MinInt64, MaxInt64 in *. lia.
  - (* a decoded line *)
    destruct H0 as (-> & done & Hl & -> & ->). split; [done|].
    exists done, text.
    assert (malformed text = false) as Hgood.
    { pose proof (malformed_spec (ParseFloat E) text fn) as Hm. rewrite H1 in Hm.
      simpl in Hm. by destruct (malformed text). }
    rewrite nDecoded_app, nMalformed_app, Hgood.
    split_and!; [done|done| |lia].
    destruct (prefix_counts done (text :: rest) Hl) as (? & ? & Hle).
    simpl length in Hle. unfold GoInt.add. rewrite int64_id; [done|].
    unfold in_int64, MinInt64, MaxInt64 in *. lia.
  - (* send *)
    destruct H0 as (-> & done & text & Hl & _ & -> & ->). split; [done|].
    exists (done ++ [text])%list. by rewrite <- app_assoc.
  - (* direct send *)
    destruct H0 as (-> & done & text & Hl & _ & -> & ->). split; [done|].
    exists (done ++ [text])%list. by rewrite <- app_assoc.
  - (* end of the scan, with an error of the scanner *)
    destruct H0 as (_ & done & Hl & -> & ->). rewrite app_nil_r in Hl. by subst.
  - (* end of the scan *)
    destruct H0 as (_ & done & Hl & -> & ->). rewrite app_nil_r in Hl. by subst.
  - (* read and clear *)
    destruct H0 as [-> ->]. by rewrite Hnil.
Qed.

End ReaderFacts.

Section MalformedFacts.

Variable E : env.
Variable fn : string.
Variable lines : list string.
Variable scanErr : option error.
Hypothesis Hfile : files E fn = Lines lines scanErr.
Hypothesis Hall : Forall (fun l => malformed l = true) lines.

(** The reader of a file with malformed lines only decodes nothing. *)
Lemma reach_never_decodes s w :
  reach E (main E) s -> workers s !! fn = Some w ->
  match w with
  | WScan rest _ nSuccess _ => nSuccess = 0 /\ forall t, t ∈ rest -> t ∈ lines
  | WSend _ _ _ _ _ => False
  | WReconcile nSuccess _ => nSuccess = 0
  | WDisposition nSuccess _ nSendingErrors => nSuccess = 0 /\ nSendingErrors = 0
  | _ => True
  end.
Proof.
  intros Hreach. revert w. revert s Hreach.
  apply (rtc_ind_r
           (fun s => forall w, workers s !! fn = Some w ->
              match w with
              | WScan rest _ nSuccess _ =>
                  nSuccess = 0 /\ forall t, t ∈ rest -> t ∈ lines
              | WSend _ _ _ _ _ => False
              | WReconcile nSuccess _ => nSuccess = 0
              | WDisposition nSuccess _ nSendingErrors =>
                  nSuccess = 0 /\ nSendingErrors = 0
              | _ => True
              end)).
  { intros w Hw. by rewrite (main_workers E fn w Hw). }
  intros s s' Hs [a Hstep] IH.
  pose proof (reach_stats_nil E s Hs) as Hnil.
  intros w. step_cases Hstep; try (by apply IH);
    (destruct (decide (fn0 = fn)) as [->|Hne];
     [rewrite lookup_insert_eq | rewrite lookup_insert_ne by done; by apply IH]);
    intros [= <-];
    match goal with
    | H : workers _ !! _ = Some _ |- _ => apply IH in H; simpl in H
    end; simpl; try done.
  - (* open *)
    match goal with H : files E fn = Lines _ _ |- _ => rewrite Hfile in H; injection H as <- <- end.
    by split.
  - (* a malformed line *)
    match goal with H : _ /\ _ |- _ => destruct H as [-> Hsub] end.
    split; [done|]. intros t Ht. apply Hsub. by right.
  - (* a decoded line: there is none *)
    match goal with H : _ /\ _ |- _ => destruct H as [_ Hsub] end.
    assert (malformed text = true) as Hbad.
    { apply (proj1 (Forall_forall _ _) Hall). apply Hsub. by left. }
    match goal with
    | H : parseLine _ _ _ = _ |- _ =>
        pose proof (malformed_spec (ParseFloat E) text fn) as Hm;
        rewrite H, Hbad in Hm
    end. done.
  - (* end of the scan, with an error of the scanner *)
    by match goal with H : _ /\ _ |- _ => destruct H as [-> _] end.
  - (* end of the scan *)
    by match goal with H : _ /\ _ |- _ => destruct H as [-> _] end.
  - (* read and clear *)
    by rewrite Hnil.
Qed.

End MalformedFacts.

(** X13: on every run over a file of fewer than 2^63 lines, the counters of its
    reader are the numbers of decoded and of malformed lines among those
    scanned: each line is counted once, in one of the two. While scanning
    the two counters and the lines to come add up to the length of the
    file, also while a record is being sent; at the read of the registry
    they add up to it. *)
Theorem every_line_counted_once E s fn lines scanErr :
  reach E (main E) s ->
  files E fn = Lines lines scanErr ->
  Z.of_nat (length lines) <= MaxInt64 ->
  (forall rest scanErr' nSuccess nErrors,
     workers s !! fn = Some (WScan rest scanErr' nSuccess nErrors) ->
     0 <= nSuccess /\ 0 <= nErrors /\
     nSuccess + nErrors + Z.of_nat (length rest) = Z.of_nat (length lines)) /\
  (forall nSuccess nErrors,
     workers s !! fn = Some (WReconcile nSuccess nErrors) ->
     nSuccess = nDecoded lines /\ nErrors = nMalformed lines /\
     nSuccess + nErrors = Z.of_nat (length lines)) /\
  (forall nSuccess nErrors nSendingErrors,
     workers s !! fn = Some (WDisposition nSuccess nErrors nSendingErrors) ->
     nSuccess = nDecoded lines /\ nErrors = nMalformed lines /\ nSendingErrors = 0) /\
  (forall apps rest scanErr' nSuccess nErrors,
     workers s !! fn = Some (WSend apps rest scanErr' nSuccess nErrors) ->
     0 <= nSuccess /\ 0 <= nErrors /\
     nSuccess + nErrors + Z.of_nat (length rest) = Z.of_nat (length lines)).
Proof.
  intros Hreach Hfile Hsize.
  pose proof (reach_readerCounts E fn lines scanErr Hfile Hsize s) as Hinv.
  split_and!.
  4:{ intros apps rest scanErr' nSuccess nErrors Hw.
      destruct (Hinv _ Hreach Hw) as (_ & done & text & -> & _ & -> & ->).
      destruct (nDecoded_nMalformed (done ++ [text])) as (Hsum & ? & ?).
      rewrite !length_app in *. simpl in *. lia. }
  - intros rest scanErr' nSuccess nErrors Hw.
    destruct (Hinv _ Hreach Hw) as (_ & done & -> & -> & ->).
    destruct (nDecoded_nMalformed done) as (Hsum & ? & ?).
    rewrite length_app. lia.
  - intros nSuccess nErrors Hw. destruct (Hinv _ Hreach Hw) as [-> ->].
    by destruct (nDecoded_nMalformed lines) as (Hsum & _ & _).
  - intros nSuccess nErrors nSendingErrors Hw. apply (Hinv _ Hreach Hw).
Qed.

Lemma every_line_counted_once_witness :
  (1 : Z) = nDecoded [Sample.line1] /\ (0 : Z) = nMalformed [Sample.line1].
Proof.
  destruct (every_line_counted_once Sample.env1 Sample.scanned1 Sample.file1
              [Sample.line1] None SampleRuns.reach1_scanned eq_refl) as (_ & H & _).
  - simpl. unfold MaxInt64. lia.
  - destruct (H 1 0 eq_refl) as (H1 & H2 & _). split; [exact H1|exact H2].
Defined.

(** X14: on every run, the reader of a file none of whose lines can be decoded
    (an empty file is one) never sends a record, its success counter
    stays 0, and the diagnostic it logs is the one for all errors. *)
Theorem all_malformed_file_fails E s fn lines scanErr w :
  reach E (main E) s ->
  files E fn = Lines lines scanErr ->
  Forall (fun l => malformed l = true) lines ->
  workers s !! fn = Some w ->
  match w with
  | WSend _ _ _ _ _ => False
  | WScan _ _ nSuccess _ | WReconcile nSuccess _ => nSuccess = 0
  | WDisposition nSuccess nErrors nSendingErrors =>
      nSuccess = 0 /\ reconcile nSuccess nErrors nSendingErrors = LogAllErrors
  | _ => True
  end.
Proof.
  intros Hreach Hfile Hall Hw.
  pose proof (reach_never_decodes E fn lines scanErr Hfile Hall s w Hreach Hw) as Hinv.
  destruct w; simpl in Hinv; try done.
  - by destruct Hinv.
  - by destruct Hinv as [-> ->].
Qed.

Lemma all_malformed_file_fails_witness :
  malformed Sample.lineShort = true /\ reconcile 0 1 0 = LogAllErrors.
Proof.
  assert (reach Sample2.env4 (main Sample2.env4) Sample2.taken4) as Hreach.
  { eapply rtc_l; [exists (Reader Sample.file1);
      by apply (step_open Sample2.env4 Sample.file1 (main Sample2.env4)
                  [Sample.lineShort] None)|].
    eapply rtc_l; [exists (Reader Sample.file1);
      by apply (step_scan_error Sample2.env4 Sample.file1 Sample2.opened4
                  Sample.lineShort [] None 0 0 (failed Sample.file1) ErrParseLine)|].
    eapply rtc_l; [exists (Reader Sample.file1);
      by apply (step_scan_end Sample2.env4 Sample.file1 Sample2.counted4 None 0 1)|].
    apply rtc_once. exists (Reader Sample.file1).
    by apply (step_take Sample2.env4 Sample.file1 Sample2.scanned4 0 1). }
  split; [reflexivity|].
  destruct (all_malformed_file_fails Sample2.env4 Sample2.taken4 Sample.file1
              [Sample.lineShort] None (WDisposition 0 1 0) Hreach eq_refl) as [_ H].
  - constructor; [reflexivity|constructor].
  - reflexivity.
  - exact H.
Defined.

(** X15: on every run, the reader of a file that cannot be opened or
    decompressed never gets past the opening: the file is neither scanned
    nor renamed. *)
Theorem unopened_file_untouched E s fn e w :
  reach E (main E) s ->
  files E fn = OpenError e \/ files E fn = GzipError e ->
  workers s !! fn = Some w ->
  w = WOpen /\ renamesOf fn s = [].
Proof.
  intros Hreach Hfile Hw.
  assert (w = WOpen) as ->.
  { revert w Hw.
    apply (reach_invariant E
             (fun s => forall w, workers s !! fn = Some w -> w = WOpen))
      with (s0 := main E) (s := s); [apply main_workers| |done].
    intros a s0 s' IH Hstep w. step_cases Hstep; try (by apply IH);
      (destruct (decide (fn0 = fn)) as [->|Hne];
       [rewrite lookup_insert_eq | rewrite lookup_insert_ne by done; by apply IH]);
      intros [= <-];
      match goal with
      | H : workers _ !! _ = Some _ |- _ => apply IH in H; try done
      end.
    destruct Hfile; congruence. }
  split; [done|].
  pose proof (reach_archived E fn s Hreach) as Harch.
  unfold archivedWhenDone in Harch. by rewrite Hw in Harch.
Qed.

Lemma unopened_file_untouched_witness :
  renamesOf Sample.file1 (main Sample.env2) = [].
Proof.
  destruct (unopened_file_untouched Sample.env2 (main Sample.env2) Sample.file1
              Sample.openError2 WOpen) as [_ H].
  - apply rtc_refl.
  - left. reflexivity.
  - reflexivity.
  - exact H.
Defined.

(** ** Runs: the wait group and the renames *)

Lemma fst_pairs {A} (l : list string) (x : A) :
  (map (fun fn => (fn, x)) l).*1 = l.
Proof. induction l as [|a l IH]; [done|]. simpl. f_equal. exact IH. Qed.

Section WaitFacts.

Variable E : env.

Lemma reach_worker_names s fn w :
  reach E (main E) s -> workers s !! fn = Some w -> fn ∈ fileNames E.
Proof.
  intros Hreach. revert fn w.
  apply (reach_invariant E
           (fun s => forall fn w, workers s !! fn = Some w -> fn ∈ fileNames E))
    with (s0 := main E) (s := s); [| |done].
  - intros fn w Hw. apply elem_of_list_to_map_2, list_elem_of_fmap in Hw.
    by destruct Hw as (fn' & [= -> _] & Hin).
  - intros a s0 s' IH Hstep fn w. step_cases Hstep; try (by apply IH);
      (destruct (decide (fn0 = fn)) as [->|Hne];
       [|rewrite lookup_insert_ne by done; by apply IH]);
      intros _; eauto.
Qed.

Lemma main_worker_lookup fn :
  NoDup (fileNames E) -> fn ∈ fileNames E -> workers (main E) !! fn = Some WOpen.
Proof.
  intros Hnd Hin. apply elem_of_list_to_map_1.
  - by rewrite fst_pairs.
  - apply list_elem_of_fmap. by exists fn.
Qed.

Lemma pending_update_running s fn w0 w :
  workers s !! fn = Some w0 -> isDone w0 = false -> isDone w = false ->
  size (filter (fun kv => isDone kv.2 = false) (<[fn := w]> (workers s))) =
  size (pending s).
Proof.
  intros Hw H0 H1. unfold pending. rewrite map_filter_insert_True by done.
  apply map_size_insert_Some. exists w0. by apply map_lookup_filter_Some.
Qed.

Lemma pending_update_done s fn w0 :
  workers s !! fn = Some w0 -> isDone w0 = false ->
  size (filter (fun kv => isDone kv.2 = false) (<[fn := WDone]> (workers s))) =
  pred (size (pending s)) /\ (0 < size (pending s))%nat.
Proof.
  intros Hw H0. unfold pending.
  assert (filter (fun kv => isDone kv.2 = false) (workers s) !! fn = Some w0) as Hin.
  { by apply map_lookup_filter_Some. }
  rewrite map_filter_insert_False by done. rewrite map_filter_delete. split.
  - apply map_size_delete_Some. by exists w0.
  - destruct (size _) eqn:Hsize; [|lia].
    apply map_size_empty_iff in Hsize. rewrite Hsize in Hin. by rewrite lookup_empty in Hin.
Qed.

Lemma reach_wg s :
  NoDup (fileNames E) -> reach E (main E) s -> wg s = Z.of_nat (size (pending s)).
Proof.
  intros Hnd. apply (reach_invariant E (fun s => wg s = Z.of_nat (size (pending s)))).
  - unfold pending. rewrite map_filter_id.
    + simpl. rewrite map_size_list_to_map, length_map; [done|].
      by rewrite fst_pairs.
    + intros fn w Hw. by rewrite (main_workers E fn w Hw).
  - intros a s0 s' IH Hstep. unfold pending in *.
    step_cases Hstep; try done.
    all: try (fold (pending s0);
              erewrite pending_update_running; [exact IH|eassumption|done|done]).
    all: destruct (pending_update_done s0 fn WArchive) as [-> Hpos]; [done|done|].
    all: fold (pending s0) in IH; lia.
Qed.

End WaitFacts.

(** X16: on every run over distinct file names, the counter of the wait group
    is the number of readers that have not reached the end of [readFile].
    So [main] returns, and the process ends with status 0, only when every
    reader is done, and it can do so as soon as they are, whatever the
    channels and the sink writers still hold. *)
Theorem main_waits_for_readers E s :
  NoDup (fileNames E) ->
  reach E (main E) s ->
  wg s = Z.of_nat (size (pending s)) /\
  (forall s', step E Main s s' ->
     status s' = Exited 0 /\
     forall fn, fn ∈ fileNames E -> workers s !! fn = Some WDone) /\
  (status s = Running ->
   (forall fn, fn ∈ fileNames E -> workers s !! fn = Some WDone) ->
   step E Main s (setStatus (Exited 0) s)).
Proof.
  intros Hnd Hreach. pose proof (reach_wg E s Hnd Hreach) as Hwg.
  assert (forall fn, fn ∈ fileNames E -> is_Some (workers s !! fn)) as Hdom.
  { revert s Hreach Hwg. intros s Hreach _. revert s Hreach.
    apply (reach_invariant E
             (fun s => forall fn, fn ∈ fileNames E -> is_Some (workers s !! fn))).
    - intros fn Hin. rewrite (main_worker_lookup E fn Hnd Hin). by eexists.
    - intros a s0 s' IH Hstep fn Hin. specialize (IH fn Hin).
      step_cases Hstep; try done;
        (destruct (decide (fn0 = fn)) as [->|Hne];
         [rewrite lookup_insert_eq; by eexists
         |by rewrite lookup_insert_ne]). }
  split_and!; [done| |].
  - intros s' Hstep. inversion Hstep; subst. split; [done|].
    intros fn Hin. destruct (Hdom fn Hin) as [w Hw].
    assert (size (pending s) = O) as Hempty by lia.
    apply map_size_empty_iff in Hempty.
    destruct (isDone w) eqn:Hdone; [by destruct w|].
    exfalso. eapply (map_filter_empty_not_lookup _ _ fn w Hempty); done.
  - intros Hrun Hall. apply step_main_exit; [done|]. rewrite Hwg.
    assert (pending s = ∅) as ->; [|by rewrite map_size_empty].
    apply map_empty. intros fn. apply map_lookup_filter_None.
    destruct (workers s !! fn) as [w|] eqn:Hw; [|by left]. right.
    intros w' [= <-]. rewrite (Hall fn) in Hw.
    + injection Hw as <-. done.
    + by apply (reach_worker_names E s fn w).
Qed.

Lemma main_waits_for_readers_witness :
  wg Sample.failed1 = 0 /\
  step Sample.env1 Main Sample.failed1 (setStatus (Exited 0) Sample.failed1).
Proof.
  destruct (main_waits_for_readers Sample.env1 Sample.failed1) as (Hwg & _ & Hexit).
  - repeat constructor. apply not_elem_of_nil.
  - exact SampleRuns.reach1_failed.
  - split; [reflexivity|]. apply Hexit; [reflexivity|].
    intros fn Hin. apply list_elem_of_singleton in Hin. rewrite Hin. reflexivity.
Defined.



(** ** Runs: where the records come from *)

Section ProvenanceFacts.

Variable E : env.

Lemma reach_provenance s : reach E (main E) s -> provenance E s.
Proof.
  revert s. apply (reach_invariant E (provenance E)).
  { split_and!.
    - intros fn w Hw. rewrite (main_workers E fn w Hw). split; [|done].
      apply elem_of_list_to_map_2, list_elem_of_fmap in Hw.
      by destruct Hw as (fn' & [= -> _] & Hin).
    - intros d q [_ ->]%main_channel_lookup. constructor.
    - intros d w [_ ->]%main_writer_lookup. done. }
  intros a s s' (Hwk & Hch & Hwr) Hstep. unfold provenance.
  step_cases Hstep; try (by split_and!).
  all: split_and!; try done.
  all: try (intros fn' w'; destruct (decide (fn = fn')) as [<-|Hne];
            [rewrite lookup_insert_eq; intros [= <-]
            |rewrite lookup_insert_ne by done; by apply Hwk]).
  all: try (intros d' q'; destruct (decide (DevType apps = d')) as [<-|Hne];
            [rewrite lookup_insert_eq; intros [= <-]
            |rewrite lookup_insert_ne by done;
             first [by apply Hch | by apply Hwr]]).
  all: try (intros d' q'; destruct (decide (d = d')) as [<-|Hne];
            [rewrite lookup_insert_eq; intros [= <-]
            |rewrite lookup_insert_ne by done;
             first [by apply Hch | by apply Hwr]]).
  all: repeat match goal with
              | H : workers _ !! _ = Some _ |- _ => apply Hwk in H as [? ?]
              | H : writers _ !! _ = Some _ |- _ => apply Hwr in H
              | H : channels _ !! _ = Some _ |- _ => apply Hch in H
              end.
  all: try done.
  all: try match goal with
           | H : exists _ _, files E _ = _ /\ _ |- _ =>
               destruct H as (lines0 & scanErr0 & Hf & Hsub)
           | H : FileName _ = _ /\ _ |- _ => destruct H as (Hname & Hfrom & Hrest)
           | H : Forall _ (_ :: _) |- _ => apply Forall_cons in H as [Hval Hq]
           end.
  - (* open *) split; [done|]. exists lines, scanErr. by split.
  - (* a malformed line, logged *)
    split; [done|]. exists lines0, scanErr0.
    split; [done|]. intros t Ht. apply Hsub. by right.
  - (* a decoded line *)
    assert (FileName apps = fn) as Hname.
    { match goal with
      | H : parseLine _ _ _ = _ |- _ => by rewrite (parseLine_ok _ _ _ _ H)
      end. }
    split_and!; [done|done| |].
    + split; [by rewrite Hname|].
      exists lines0, scanErr0, text. rewrite Hname. split_and!; [done| |done].
      apply Hsub. by left.
    + exists lines0, scanErr0. split; [done|]. intros t Ht. apply Hsub. by right.
  - (* send *) by split.
  - (* send *) apply Forall_app. split; [done|]. by constructor.
  - (* direct send *) by split.
  - (* direct send *) done.
  - (* receive *) done.
  - (* receive *) done.
Qed.

End ProvenanceFacts.

(** X18: on every run, each record waiting in a channel or held by a sink
    writer was decoded by [parseLine] from a line of the file it names,
    and that file is one of the files of the run: no record is made up,
    and none is attributed to another file. *)
Theorem records_come_from_their_file E s :
  reach E (main E) s ->
  (forall d q r, channels s !! d = Some q -> r ∈ q -> fromFile E r) /\
  (forall d r, writers s !! d = Some (SLoop r) -> fromFile E r) /\
  (forall d r err, writers s !! d = Some (SAfter r err) -> fromFile E r).
Proof.
  intros (_ & Hch & Hwr)%reach_provenance. split_and!.
  - intros d q r Hq Hr. by apply (proj1 (Forall_forall _ _) (Hch d q Hq)).
  - intros d r Hw. apply (Hwr d _ Hw).
  - intros d r err Hw. apply (Hwr d _ Hw).
Qed.

Lemma records_come_from_their_file_witness : fromFile Sample.env1 Sample.apps1.
Proof.
  destruct (records_come_from_their_file Sample.env1 Sample.failed1
              SampleRuns.reach1_failed) as (_ & _ & H).
  exact (H "idfa" Sample.apps1 (Some Sample.refused) eq_refl).
Defined.
